(** * One Billion Row Challenge: the interning, scanning, partitioning and
      merging core of the Go programs, embedded in Rocq.

    The program embedded in full is the sharded-interner variant (package
    main with [Intern], [parseChunkIDs] and the partitioner of at most eight
    workers).  Of the shard-file variant (go_v1) the file access and the
    first phase are embedded in [GoV1], of the overlap-read variant the
    computation of the worker ranges in [Part002].  Go values are modelled
    as follows:
    - [byte] is [Byte.byte]; a [[]byte] and a Go [string] are both [list byte];
    - [int32], [int64] and [uint64] are [Z] with the wrap-around written out;
    - [map[K]V] is a [gmap]; a slice is a [list];
    - a run-time panic (index out of range) is [None]. *)

From Stdlib Require Import ZArith QArith Strings.Byte Strings.String Lia.
From stdpp Require Import gmap list.

Local Open Scope Z_scope.
#[local] Set Warnings "-clear-no-such-hyp".

#[global] Instance byte_eq_decision : EqDecision byte := byte_eq_dec.

(** ** Machine integers *)

Definition int32 (z : Z) : Z := (z + 2 ^ 31) mod 2 ^ 32 - 2 ^ 31.
Definition int64 (z : Z) : Z := (z + 2 ^ 63) mod 2 ^ 64 - 2 ^ 63.
Definition uint64 (z : Z) : Z := z mod 2 ^ 64.

Definition byteZ (c : byte) : Z := Z.of_N (Byte.to_N c).

(** Go's [s[i]] on a slice with an [int32] or [int] index: out of range is a
    panic. *)
Definition index {A} (l : list A) (i : Z) : option A :=
  if decide (0 ≤ i) then l !! Z.to_nat i else None.

(** ** Stat and the interner *)

Record Stat := mkStat { min : Z; max : Z; sum : Z; count : Z }.

#[global] Instance Stat_eq_dec : EqDecision Stat.
Proof. solve_decision. Defined.

(** [internShard.m]; the lock [mu] carries no data. *)
Record Intern := mkIntern {
  shards : list (gmap Z (list Z));
  names : list (list byte)
}.

Definition newIntern : Intern :=
  {| shards := replicate 256 ∅; names := [] |}.

Definition fnv1a64 (b : list byte) : Z :=
  let off := 1469598103934665603 in
  let prime := 1099511628211 in
  foldl (fun h c => uint64 (Z.lxor h (byteZ c) * prime)) (uint64 off) b.

Fixpoint eqBytes (s b : list byte) : bool :=
  match s, b with
  | x :: s', y :: b' => if decide (x = y) then eqBytes s' b' else false
  | _, _ => true
  end.

Definition equalSB (s b : list byte) : bool :=
  if decide (length s = length b) then eqBytes s b else false.

(** The read path of [GetOrAdd]: [Some (Some id)] is a hit, [Some None] a
    miss, [None] the panic of [in.names[id]]. *)
Fixpoint scanIds (nms : list (list byte)) (ids : list Z) (b : list byte)
  : option (option Z) :=
  match ids with
  | [] => Some None
  | id :: ids' =>
      match index nms id with
      | None => None
      | Some s => if equalSB s b then Some (Some id) else scanIds nms ids' b
      end
  end.

Definition shardOf (h : Z) : nat := Z.to_nat (Z.land h 255).

Definition GetOrAdd (inn : Intern) (b : list byte) : option (Z * Intern) :=
  let h := fnv1a64 b in
  let sh := shards inn !!! shardOf h in
  let ids := default [] (sh !! h) in
  match scanIds (names inn) ids b with
  | None => None
  | Some (Some id) => Some (id, inn)
  | Some None =>
      let s := b in
      let id := int32 (Z.of_nat (length (names inn))) in
      Some (id, {| shards := <[shardOf h := <[h := ids ++ [id]]> sh]> (shards inn);
                   names := names inn ++ [s] |})
  end.

Definition Name (inn : Intern) (id : Z) : option (list byte) :=
  index (names inn) id.

(** Interning a sequence of keys one call after the other; the identifiers
    come back in call order. *)
Fixpoint internSeq (inn : Intern) (ks : list (list byte))
  : option (list Z * Intern) :=
  match ks with
  | [] => Some ([], inn)
  | k :: ks' =>
      match GetOrAdd inn k with
      | None => None
      | Some (id, inn1) =>
          match internSeq inn1 ks' with
          | None => None
          | Some (ids, inn2) => Some (id :: ids, inn2)
          end
      end
  end.

(** ** Scanning and parsing one chunk ([parseChunkIDs])

    The read position is the pair of the index [i] and the unread bytes
    [rest = buf[i:]], so that [i < n] is [rest ≠ []] and [buf[i]] is the head
    of [rest]. *)

Definition LF : byte := x0a.

(** [buf[lo:hi]]; out-of-range bounds panic. *)
Definition slice {A} (buf : list A) (lo hi : Z) : option (list A) :=
  if decide (0 ≤ lo ∧ lo ≤ hi ∧ hi ≤ Z.of_nat (length buf))
  then Some (take (Z.to_nat (hi - lo)) (drop (Z.to_nat lo) buf))
  else None.

Definition isDigit (c : byte) : bool :=
  bool_decide (byteZ "0" ≤ byteZ c) && bool_decide (byteZ c ≤ byteZ "9").

(** [int32(c - '0')] for a byte [c]. *)
Definition digitVal (c : byte) : Z := int32 ((byteZ c - byteZ "0") mod 2 ^ 8).

(** The inner loop that looks for the semicolon.  Result: [semi], then the
    read position, then [lineStart]. *)
Fixpoint findSemi (rest : list byte) (i lineStart : Z)
  : Z * (list byte * Z) * Z :=
  match rest with
  | [] => (-1, ([], i), lineStart)
  | b :: rest' =>
      if decide (b = ";"%byte) then (i, (rest', i + 1), lineStart)
      else if decide (b = LF) then findSemi rest' (i + 1) (i + 1)
      else findSemi rest' (i + 1) lineStart
  end.

Definition parseSign (rest : list byte) (i : Z) : Z * (list byte * Z) :=
  match rest with
  | c :: rest' =>
      if decide (c = "-"%byte) then (int32 (-1), (rest', i + 1))
      else if decide (c = "+"%byte) then (int32 1, (rest', i + 1))
      else (int32 1, (rest, i))
  | [] => (int32 1, (rest, i))
  end.

Fixpoint parseInt (rest : list byte) (i : Z) (intPart : Z)
  : Z * (list byte * Z) :=
  match rest with
  | c :: rest' =>
      if isDigit c
      then parseInt rest' (i + 1) (int32 (int32 (intPart * 10) + digitVal c))
      else (intPart, (rest, i))
  | [] => (intPart, (rest, i))
  end.

Definition skipDot (rest : list byte) (i : Z) : list byte * Z :=
  match rest with
  | c :: rest' => if decide (c = "."%byte) then (rest', i + 1) else (rest, i)
  | [] => (rest, i)
  end.

Definition parseDec (rest : list byte) (i : Z) : Z * (list byte * Z) :=
  match rest with
  | c :: rest' => if isDigit c then (digitVal c, (rest', i + 1)) else (0, (rest, i))
  | [] => (0, (rest, i))
  end.

(** [for i < n && buf[i] != '\n' { i++ }] followed by the step over the
    line feed. *)
Fixpoint skipLine (rest : list byte) (i : Z) : list byte * Z :=
  match rest with
  | c :: rest' => if decide (c = LF) then (rest', i + 1) else skipLine rest' (i + 1)
  | [] => (rest, i)
  end.

(** The temperature parser of lines 249-287 and the value [tenth] of
    line 291. *)
Definition parseTemp (rest : list byte) (i : Z) : Z * (list byte * Z) :=
  let '(sign, (rest1, i1)) := parseSign rest i in
  let '(intPart, (rest2, i2)) := parseInt rest1 i1 0 in
  let '(rest3, i3) := skipDot rest2 i2 in
  let '(decDigit, (rest4, i4)) := parseDec rest3 i3 in
  let '(rest5, i5) := skipLine rest4 i4 in
  (int32 (sign * int32 (int32 (intPart * 10) + decDigit)), (rest5, i5)).

(** The update of the local map at the end of the loop body. *)
Definition record (m : gmap Z Stat) (cityID tenth : Z) : gmap Z Stat :=
  match m !! cityID with
  | Some st =>
      let mn := if decide (tenth < min st) then tenth else min st in
      let mx := if decide (tenth > max st) then tenth else max st in
      <[cityID := {| min := mn; max := mx;
                     sum := int64 (sum st + int64 tenth);
                     count := int64 (count st + 1) |}]> m
  | None =>
      <[cityID := {| min := tenth; max := tenth; sum := int64 tenth; count := 1 |}]> m
  end.

(** The outer loop.  Every iteration that does not leave the loop reads at
    least the semicolon, so [length buf] iterations always suffice
    ([parseLoop_fuel] below). *)
Fixpoint parseLoop (fuel : nat) (buf rest : list byte) (i : Z)
    (m : gmap Z Stat) (inn : Intern) : option (gmap Z Stat * Intern) :=
  match fuel with
  | O => Some (m, inn)
  | S fuel' =>
      match rest with
      | [] => Some (m, inn)
      | _ :: _ =>
          let '(semi, (rest1, i1), lineStart) := findSemi rest i i in
          if decide (semi < 0) then Some (m, inn)
          else
            let '(tenth, (rest2, i2)) := parseTemp rest1 i1 in
            match slice buf lineStart semi with
            | None => None
            | Some key =>
                match GetOrAdd inn key with
                | None => None
                | Some (cityID, inn') =>
                    parseLoop fuel' buf rest2 i2 (record m cityID tenth) inn'
                end
            end
      end
  end.

Definition parseChunkIDs (buf : list byte) (m : gmap Z Stat) (inn : Intern)
  : option (gmap Z Stat * Intern) :=
  parseLoop (length buf) buf buf 0 m inn.

(** ** The partitioner and the merge of [main] *)

(** [for pos < bound && data[pos] != '\n' { pos++ }], read position as
    above; reading past the end of [data] panics. *)
Fixpoint scanLF (rest : list byte) (pos bound : Z) : option Z :=
  if decide (pos < bound) then
    match rest with
    | [] => None
    | c :: rest' => if decide (c = LF) then Some pos else scanLF rest' (pos + 1) bound
    end
  else Some pos.

(** The body of the dispatch loop for worker [i]: the byte range
    [(start, end)] handed to the goroutine. *)
Definition partition (data : list byte) (workers chunk i : Z) : option (Z * Z) :=
  let len := Z.of_nat (length data) in
  let start := i * chunk in
  let end0 := start + chunk in
  let end1 := if decide (i = workers - 1) then len else end0 in
  match
    (if decide (i > 0) then
       match scanLF (drop (Z.to_nat start) data) start end1 with
       | None => None
       | Some s => Some (if decide (s < end1) then s + 1 else s)
       end
     else Some start)
  with
  | None => None
  | Some start1 =>
      match
        (if decide (i < workers - 1)
         then scanLF (drop (Z.to_nat end1) data) end1 len
         else Some end1)
      with
      | None => None
      | Some end2 => Some (start1, end2)
      end
  end.

(** [chunk := len(data) / workers] and the dispatch loop; the division
    panics when [workers] is 0. *)
Definition partitions (data : list byte) (workers : Z) : option (list (Z * Z)) :=
  if decide (workers = 0) then None
  else
    let chunk := Z.of_nat (length data) `quot` workers in
    mapM (partition data workers chunk) (seqZ 0 workers).

(** The workers, run one after the other in index order with the shared
    interner; [locals[idx]] is the map of worker [idx]. *)
Fixpoint runWorkers (data : list byte) (parts : list (Z * Z)) (inn : Intern)
  : option (list (gmap Z Stat) * Intern) :=
  match parts with
  | [] => Some ([], inn)
  | (s, e) :: parts' =>
      match slice data s e with
      | None => None
      | Some buf =>
          match parseChunkIDs buf ∅ inn with
          | None => None
          | Some (m, inn1) =>
              match runWorkers data parts' inn1 with
              | None => None
              | Some (ms, inn2) => Some (m :: ms, inn2)
              end
          end
      end
  end.

(** The combination of a global entry [g] with a local entry [st]. *)
Definition mergeStat (g st : Stat) : Stat :=
  {| min := if decide (min st < min g) then min st else min g;
     max := if decide (max st > max g) then max st else max g;
     sum := int64 (sum g + sum st);
     count := int64 (count g + count st) |}.

Definition mergeEntry (global : gmap Z Stat) (e : Z * Stat) : gmap Z Stat :=
  match global !! e.1 with
  | None => <[e.1 := e.2]> global
  | Some g => <[e.1 := mergeStat g e.2]> global
  end.

(** [for id, st := range m]: Go leaves the order open; [mergeEntries] takes
    the entries in any order, [mergeMap] in the order of [map_to_list]. *)
Definition mergeEntries (global : gmap Z Stat) (es : list (Z * Stat)) : gmap Z Stat :=
  foldl mergeEntry global es.

Definition mergeMap (global m : gmap Z Stat) : gmap Z Stat :=
  mergeEntries global (map_to_list m).

Definition mergeLocals (locals : list (gmap Z Stat)) : gmap Z Stat :=
  foldl mergeMap ∅ locals.

(** Partition, scan and merge for a non-empty mapped file. *)
Definition aggregate (data : list byte) (workers : Z) : option (gmap Z Stat * Intern) :=
  match partitions data workers with
  | None => None
  | Some parts =>
      match runWorkers data parts newIntern with
      | None => None
      | Some (locals, inn) => Some (mergeLocals locals, inn)
      end
  end.

(** What the output loop prints, one record per identifier: the resolved
    name and the statistics it formats. *)
Definition output (global : gmap Z Stat) (inn : Intern) : option (list (list byte * Stat)) :=
  mapM (fun e : Z * Stat => match Name inn e.1 with
                            | None => None
                            | Some nm => Some (nm, e.2)
                            end) (map_to_list global).

Inductive outcome :=
  | Panicked
  | Returned (printed : list (list byte * Stat)).

Definition numWorkers (nCPU : Z) : Z := if decide (nCPU > 8) then 8 else nCPU.

(** [main]: [file] is [None] when the file cannot be opened, examined or
    mapped (each of these panics), otherwise its content. *)
Definition main (file : option (list byte)) (nCPU : Z) : outcome :=
  match file with
  | None => Panicked
  | Some data =>
      if decide (Z.of_nat (length data) = 0) then Returned []
      else
        match aggregate data (numWorkers nCPU) with
        | None => Panicked
        | Some (global, inn) =>
            match output global inn with
            | None => Panicked
            | Some printed => Returned printed
            end
        end
  end.

Definition totalCount (global : gmap Z Stat) : Z :=
  map_fold (fun _ st acc => acc + count st) 0 global.

(** ** [GetOrAdd] in its critical sections

    One call of [GetOrAdd] holds a lock three times: the shard's read lock
    for [ids := sh.m[h]] (the scan of [ids] follows), [namesMu] for the
    append to [names], and the shard's write lock for
    [sh.m[h] = append(ids, id)].  Between them other goroutines may run. *)
Inductive callState :=
  | AtRead
  | AtNames (ids : list Z)
  | AtShard (ids : list Z) (id : Z)
  | Finished (id : Z).

Definition stepCall (b : list byte) (st : callState) (inn : Intern)
  : option (callState * Intern) :=
  let h := fnv1a64 b in
  match st with
  | AtRead =>
      let ids := default [] ((shards inn !!! shardOf h) !! h) in
      match scanIds (names inn) ids b with
      | None => None
      | Some (Some id) => Some (Finished id, inn)
      | Some None => Some (AtNames ids, inn)
      end
  | AtNames ids =>
      let id := int32 (Z.of_nat (length (names inn))) in
      Some (AtShard ids id, {| shards := shards inn; names := names inn ++ [b] |})
  | AtShard ids id =>
      let sh := shards inn !!! shardOf h in
      Some (Finished id,
            {| shards := <[shardOf h := <[h := ids ++ [id]]> sh]> (shards inn);
               names := names inn |})
  | Finished id => Some (Finished id, inn)
  end.

(** Two goroutines, each in one call; the schedule says which one runs its
    next critical section ([true] for the first). *)
Fixpoint runSchedule (b1 b2 : list byte) (sched : list bool)
    (s1 s2 : callState) (inn : Intern) : option (callState * callState * Intern) :=
  match sched with
  | [] => Some (s1, s2, inn)
  | true :: sched' =>
      match stepCall b1 s1 inn with
      | None => None
      | Some (s1', inn') => runSchedule b1 b2 sched' s1' s2 inn'
      end
  | false :: sched' =>
      match stepCall b2 s2 inn with
      | None => None
      | Some (s2', inn') => runSchedule b1 b2 sched' s1 s2' inn'
      end
  end.

(** ** The shard-file variant (go_v1) up to the end of its first phase *)
Module GoV1.

Definition shardCount : Z := 32.

Inductive error := ErrAccess | ErrFileEmpty.

(** [file] is [None] when the file cannot be opened, examined or mapped. *)
Definition mmapFile (file : option (list byte)) : list byte + error :=
  match file with
  | None => inr ErrAccess
  | Some data =>
      if decide (Z.of_nat (length data) = 0) then inr ErrFileEmpty else inl data
  end.

Fixpoint findSepFrom (b : list byte) (i : Z) : Z :=
  match b with
  | [] => -1
  | c :: b' => if decide (c = ";"%byte) then i else findSepFrom b' (i + 1)
  end.

Definition findSep (b : list byte) : Z := findSepFrom b 0.

(** [fnv.New32a] of the Go standard library. *)
Definition fnv32a (b : list byte) : Z :=
  foldl (fun h c => (Z.lxor h (byteZ c) * 16777619) mod 2 ^ 32) 2166136261 b.

(** [int(h.Sum32()) % shardCount] with a 64-bit [int]. *)
Definition shardIndex (b : list byte) : Z := fnv32a b `rem` shardCount.

(** The scan of phase 1; read position as in [parseChunkIDs]. *)
Fixpoint shardLoop (data rest : list byte) (i lineStart : Z)
    (shardBuf : list (list byte)) : option (list (list byte)) :=
  match rest with
  | [] => Some shardBuf
  | c :: rest' =>
      if decide (c ≠ LF) then shardLoop data rest' (i + 1) lineStart shardBuf
      else
        match slice data lineStart i with
        | None => None
        | Some line =>
            if decide (Z.of_nat (length line) = 0)
            then shardLoop data rest' (i + 1) (i + 1) shardBuf
            else
              let sep := findSep line in
              if decide (sep ≤ 0)
              then shardLoop data rest' (i + 1) (i + 1) shardBuf
              else
                match slice line 0 sep with
                | None => None
                | Some station =>
                    let sh := Z.to_nat (shardIndex station) in
                    shardLoop data rest' (i + 1) (i + 1)
                      (<[sh := (shardBuf !!! sh) ++ line ++ [LF]]> shardBuf)
                end
        end
  end.

(** [main] up to the shard buffers that phase 2 reads back: [None] is the
    panic on the error of [mmapFile]. *)
Definition shardPhase (file : option (list byte)) : option (list (list byte)) :=
  match mmapFile file with
  | inr _ => None
  | inl data => shardLoop data data 0 0 (replicate (Z.to_nat shardCount) [])
  end.

End GoV1.

(** ** The overlap-read variant: the byte range each worker scans *)
Module Part002.

Definition overlap : Z := 2 ^ 20.

(** The loop that fills [wks]: [n] iterations are left, [i] is the loop
    index and [s] the running start. *)
Fixpoint works (n : nat) (i s size chunk workers : Z) : list (Z * Z) :=
  match n with
  | O => []
  | S n' =>
      let e := if decide (i = workers - 1) then size - 1 else s + chunk - 1 in
      (s, e) :: works n' (i + 1) (e + 1) size chunk workers
  end.

(** [for offset < readLen { if buf[offset] == '\n' { offset++; break }; offset++ }] *)
Fixpoint skipPartial (rest : list byte) (offset : Z) : Z :=
  match rest with
  | [] => offset
  | c :: rest' =>
      if decide (c = LF) then offset + 1 else skipPartial rest' (offset + 1)
  end.

(** [for j >= 0 && buf[j] != '\n' { j-- }] from [j = k - 1]. *)
Fixpoint scanBack (buf : list byte) (k : nat) : option Z :=
  match k with
  | O => Some (-1)
  | S j =>
      match buf !! j with
      | None => None
      | Some c => if decide (c ≠ LF) then scanBack buf j else Some (Z.of_nat j)
      end
  end.

(** The goroutine of worker [(start, end)]: [None] is a panic, [Some None]
    the early return, [Some (Some (a, b))] the range [file[a:b]] handed to
    [parseChunk]. *)
Definition window (file : list byte) (w : Z * Z) : option (option (Z * Z)) :=
  let size := Z.of_nat (length file) in
  let '(start, end_) := w in
  let readStart := start in
  let readEnd := if decide (end_ + overlap >= size) then size - 1 else end_ + overlap in
  let readLen := readEnd - readStart + 1 in
  match slice file readStart (readStart + readLen) with
  | None => None
  | Some buf =>
      let offset := if decide (start ≠ 0) then skipPartial buf 0 else 0 in
      if decide (start ≠ 0 ∧ offset >= readLen) then Some None
      else
        match
          (if decide (end_ < size - 1) then
             match scanBack buf (Z.to_nat readLen) with
             | None => None
             | Some j => Some (if decide (j >= 0) then j + 1 else readLen)
             end
           else Some readLen)
        with
        | None => None
        | Some limit =>
            match slice buf offset limit with
            | None => None
            | Some _ => Some (Some (readStart + offset, readStart + limit))
            end
        end
  end.

Definition windows (file : list byte) (workers : Z) : option (list (option (Z * Z))) :=
  let size := Z.of_nat (length file) in
  let chunk := size `quot` workers in
  mapM (window file) (works (Z.to_nat workers) 0 0 size chunk workers).

End Part002.

(** ** The scanner of the overlap-read variant ([parseChunk])

    The same loop as [parseChunkIDs], with the local map keyed by the
    station name, [city := string(buf[lineStart:semi])]. *)

#[global] Instance byte_countable : Countable byte.
Proof.
  apply (inj_countable' Byte.to_N (fun n => default x00 (Byte.of_N n))).
  intros b. by rewrite Byte.of_to_N.
Defined.

Definition recordCity (m : gmap (list byte) Stat) (city : list byte) (tenth : Z)
  : gmap (list byte) Stat :=
  match m !! city with
  | Some st =>
      let mn := if decide (tenth < min st) then tenth else min st in
      let mx := if decide (tenth > max st) then tenth else max st in
      <[city := {| min := mn; max := mx;
                   sum := int64 (sum st + int64 tenth);
                   count := int64 (count st + 1) |}]> m
  | None =>
      <[city := {| min := tenth; max := tenth; sum := int64 tenth; count := 1 |}]> m
  end.

Fixpoint parseChunkLoop (fuel : nat) (buf rest : list byte) (i : Z)
    (m : gmap (list byte) Stat) : option (gmap (list byte) Stat) :=
  match fuel with
  | O => Some m
  | S fuel' =>
      match rest with
      | [] => Some m
      | _ :: _ =>
          let '(semi, (rest1, i1), lineStart) := findSemi rest i i in
          if decide (semi < 0) then Some m
          else
            let '(tenth, (rest2, i2)) := parseTemp rest1 i1 in
            match slice buf lineStart semi with
            | None => None
            | Some city => parseChunkLoop fuel' buf rest2 i2 (recordCity m city tenth)
            end
      end
  end.

Definition parseChunk (buf : list byte) (m : gmap (list byte) Stat)
  : option (gmap (list byte) Stat) :=
  parseChunkLoop (length buf) buf buf 0 m.

(** * Definitions used to state and prove the properties *)

(** The invariant of the interner between calls. *)
Record wfIntern (inn : Intern) : Prop := {
  wf_nodup : NoDup (names inn);
  wf_length : length (shards inn) = 256%nat;
  wf_sound : ∀ si h ids id,
    (shards inn !!! si) !! h = Some ids → id ∈ ids →
    0 ≤ id < Z.of_nat (length (names inn));
  wf_complete : ∀ (i : nat) s,
    names inn !! i = Some s →
    ∃ ids, (shards inn !!! shardOf (fnv1a64 s)) !! fnv1a64 s = Some ids
           ∧ Z.of_nat i ∈ ids
}.

(** The interner after the miss path of [GetOrAdd b]. *)
Definition addName (inn : Intern) (b : list byte) : Intern :=
  let h := fnv1a64 b in
  let sh := shards inn !!! shardOf h in
  let ids := default [] (sh !! h) in
  {| shards := <[shardOf h := <[h := ids ++ [Z.of_nat (length (names inn))]]> sh]> (shards inn);
     names := names inn ++ [b] |}.

(** Number of distinct keys in a call history. *)
Definition distinct (ks : list (list byte)) : nat := length (remove_dups ks).

(** [findSemi] on the unread bytes alone: [key] is [buf[lineStart:i]]. *)
Fixpoint splitSemi (rest key : list byte) : option (list byte * list byte) :=
  match rest with
  | [] => None
  | b :: rest' =>
      if decide (b = ";"%byte) then Some (key, rest')
      else if decide (b = LF) then splitSemi rest' []
      else splitSemi rest' (key ++ [b])
  end.

(** The loop of [parseChunkIDs] on the unread bytes alone. *)
Fixpoint parseLines (fuel : nat) (rest : list byte) (m : gmap Z Stat) (inn : Intern)
  : option (gmap Z Stat * Intern) :=
  match fuel with
  | O => Some (m, inn)
  | S fuel' =>
      match splitSemi rest [] with
      | None => Some (m, inn)
      | Some (k, r) =>
          match GetOrAdd inn k with
          | None => None
          | Some (cityID, inn') =>
              parseLines fuel' (parseTemp r 0).2.1
                (record m cityID (parseTemp r 0).1) inn'
          end
      end
  end.

(** [advance rest i rest' i']: the read position moved forward inside
    [rest]. *)
Definition advance (rest : list byte) (i : Z) (rest' : list byte) (i' : Z) : Prop :=
  ∃ k : nat, rest' = drop k rest ∧ i' = i + Z.of_nat k ∧ (k ≤ length rest)%nat.

(** Buffers made of whole lines. *)
Inductive complete : list byte → Prop :=
  | complete_nil : complete []
  | complete_line v l : LF ∉ v → complete l → complete (v ++ LF :: l).

(** Sequencing of two scans: the second starts from the map and the
    interner the first one leaves; a panic of the first is a panic. *)
Definition andThen (r : option (gmap Z Stat * Intern))
    (f : gmap Z Stat → Intern → option (gmap Z Stat * Intern)) :=
  match r with
  | None => None
  | Some (m, inn) => f m inn
  end.

(** Texts of the form [sign]digits['.'digit]: the optional sign, the digits
    before the point and the optional digit behind it. *)
Inductive signOpt := NoSign | Minus | Plus.

Record decimalText := {
  dsign : signOpt;
  dint : list byte;
  dfrac : option byte
}.

Definition signBytes (s : signOpt) : list byte :=
  match s with NoSign => [] | Minus => ["-"%byte] | Plus => ["+"%byte] end.

Definition signZ (s : signOpt) : Z :=
  match s with Minus => -1 | _ => 1 end.

Definition fracBytes (o : option byte) : list byte :=
  match o with Some c => ["."%byte; c] | None => [] end.

Definition render (d : decimalText) : list byte :=
  signBytes (dsign d) ++ dint d ++ fracBytes (dfrac d).

Definition digitsVal (ds : list byte) : Z :=
  foldl (fun a c => a * 10 + (byteZ c - 48)) 0 ds.

Definition fracVal (o : option byte) : Z :=
  match o with Some c => byteZ c - 48 | None => 0 end.

(** The numeric value, and the numeric value times ten. *)
Definition valueQ (d : decimalText) : Q :=
  Qmult (inject_Z (signZ (dsign d)))
        (Qplus (inject_Z (digitsVal (dint d))) (Qmake (fracVal (dfrac d)) 10)).

Definition scaled (d : decimalText) : Z :=
  signZ (dsign d) * (digitsVal (dint d) * 10 + fracVal (dfrac d)).

Definition wellFormed (d : decimalText) : Prop :=
  dint d ≠ [] ∧ Forall (fun c => isDigit c = true) (dint d) ∧
  match dfrac d with Some c => isDigit c = true | None => True end.

(** What follows a value in the buffer: the line feed or the end. *)
Definition lineEnd (tail : list byte) : Prop :=
  tail = [] ∨ ∃ r, tail = LF :: r.

(** [%.1f] of [float64(t)/10.0], for a value [t] in tenths: the sign, the
    decimal digits of [|t| / 10], the point and the digit [|t| mod 10]. *)
Definition digitByte (d : Z) : byte :=
  default "0"%byte (Byte.of_N (Z.to_N (d + 48))).

Fixpoint digitsOf (fuel : nat) (n : Z) : list byte :=
  match fuel with
  | O => []
  | S fuel' =>
      if decide (n < 10) then [digitByte n]
      else digitsOf fuel' (n / 10) ++ [digitByte (n mod 10)]
  end.

Definition fmtTenths (t : Z) : decimalText :=
  {| dsign := if decide (t < 0) then Minus else NoSign;
     dint := digitsOf 12 (Z.abs t / 10);
     dfrac := Some (digitByte (Z.abs t mod 10)) |}.

(** The combination of two optional entries of one key. *)
Definition optMerge (g st : option Stat) : option Stat :=
  match g, st with
  | None, _ => st
  | Some a, None => Some a
  | Some a, Some b => Some (mergeStat a b)
  end.

(** The entry of a single reading. *)
Definition single (tenth : Z) : Stat :=
  {| min := tenth; max := tenth; sum := int64 tenth; count := 1 |}.

(** [pre] is empty or ends with a line feed: what follows starts a line. *)
Definition wholeLines (pre : list byte) : Prop :=
  pre = [] ∨ ∃ p, pre = p ++ [LF].

(** Offset of the first line feed, or the length when there is none. *)
Fixpoint lfIndex (rest : list byte) : nat :=
  match rest with
  | [] => 0
  | c :: rest' => if decide (c = LF) then 0 else S (lfIndex rest')
  end.

(** The partitions joined again with the line feed that separates them. *)
Fixpoint joinLF (bufs : list (list byte)) : list byte :=
  match bufs with
  | [] => []
  | [b] => b
  | b :: bs => b ++ LF :: joinLF bs
  end.

(** [end] of worker [i] before its alignment. *)
Definition naiveEnd (data : list byte) (workers chunk i : Z) : Z :=
  if decide (i = workers - 1) then Z.of_nat (length data) else i * chunk + chunk.

(** Every naive chunk after the first contains a line feed. *)
Definition chunksHaveLF (data : list byte) (workers : Z) : Prop :=
  let chunk := Z.of_nat (length data) `quot` workers in
  ∀ i, 0 < i < workers →
    ∃ q, i * chunk ≤ q < naiveEnd data workers chunk i ∧
         data !! Z.to_nat q = Some LF.

(** The byte slices [data[s:e]] of a list of ranges. *)
Definition slices (data : list byte) (parts : list (Z * Z)) : option (list (list byte)) :=
  mapM (fun p : Z * Z => slice data p.1 p.2) parts.

Definition bytes (s : string) : list byte := list_byte_of_string s.

(** The printed records of a scan or of the whole pipeline. *)
Definition entries (r : option (gmap Z Stat * Intern)) : option (list (list byte * Stat)) :=
  match r with
  | None => None
  | Some (global, inn) => output global inn
  end.

Definition counts (r : option (gmap Z Stat * Intern)) : option Z :=
  match r with
  | None => None
  | Some (global, _) => Some (totalCount global)
  end.

(** The keys of a call history in the order of their first occurrence. *)
Definition firstSeen (ks : list (list byte)) : list (list byte) :=
  foldl (fun acc k => if decide (k ∈ acc) then acc else acc ++ [k]) [] ks.

(** The lines of a buffer: the byte runs between line feeds, the run behind
    the last line feed included. *)
Fixpoint splitLF (buf cur : list byte) : list (list byte) :=
  match buf with
  | [] => [cur]
  | c :: buf' =>
      if decide (c = LF) then cur :: splitLF buf' [] else splitLF buf' (cur ++ [c])
  end.

Definition lines (buf : list byte) : list (list byte) := splitLF buf [].

(** Number of lines that contain a semicolon. *)
Definition recordedLines (buf : list byte) : Z :=
  Z.of_nat (length (filter (fun l => ";"%byte ∈ l) (lines buf))).

(** What holds of every entry of a local map after [n] recorded lines. *)
Definition statInv (n : Z) (st : Stat) : Prop :=
  - 2 ^ 31 ≤ min st ∧ min st ≤ max st ∧ max st < 2 ^ 31 ∧
  1 ≤ count st ∧ count st ≤ n ∧
  min st * count st ≤ sum st ∧ sum st ≤ max st * count st.

Definition mapInv (n : Z) (m : gmap Z Stat) : Prop :=
  (∀ id st, m !! id = Some st → statInv n st) ∧ totalCount m ≤ n.

(** Every key of the map is an identifier of the interner. *)
Definition keysValid (m : gmap Z Stat) (inn : Intern) : Prop :=
  ∀ id st, m !! id = Some st → is_Some (Name inn id).
(** What a scan of [buf] that starts with [n] recorded lines establishes,
    and what it needs. *)
Definition scanPost (buf : list byte) (n : Z) (m : gmap Z Stat) (inn : Intern) : Prop :=
  ∃ m' inn',
    parseChunkIDs buf m inn = Some (m', inn') ∧
    wfIntern inn' ∧ names inn `prefix_of` names inn' ∧
    (length (names inn') ≤ length (names inn) + length buf)%nat ∧
    keysValid m' inn' ∧
    mapInv (n + recordedLines buf) m' ∧
    totalCount m' = totalCount m + recordedLines buf.

Definition scanPre (buf : list byte) (n : Z) (m : gmap Z Stat) (inn : Intern) : Prop :=
  wfIntern inn ∧ keysValid m inn ∧ mapInv n m ∧ 0 ≤ n ∧
  Z.of_nat (length (names inn)) + Z.of_nat (length buf) < 2 ^ 31 ∧
  n + Z.of_nat (length buf) < 2 ^ 31.

(** The lines of a buffer that are ended by a line feed, in order; [cur] is
    the part of the current line already passed. *)
Fixpoint terminated (buf cur : list byte) : list (list byte) :=
  match buf with
  | [] => []
  | c :: buf' =>
      if decide (c = LF) then cur :: terminated buf' []
      else terminated buf' (cur ++ [c])
  end.

(** The lines the shard-file variant keeps for shard [s]: a semicolon
    behind a non-empty station whose hash selects [s]. *)
Definition shardLines (s : nat) (ls : list (list byte)) : list (list byte) :=
  filter (fun l => 0 < GoV1.findSep l ∧
                   Z.to_nat (GoV1.shardIndex (take (Z.to_nat (GoV1.findSep l)) l)) = s) ls.

Definition shardText (s : nat) (ls : list (list byte)) : list byte :=
  concat ((fun l => l ++ [LF]) <$> shardLines s ls).
(** One step of the routing: where a terminated line goes. *)
Definition routeLine (sb : list (list byte)) (line : list byte) : list (list byte) :=
  if decide (GoV1.findSep line ≤ 0) then sb
  else
    let sh := Z.to_nat (GoV1.shardIndex (take (Z.to_nat (GoV1.findSep line)) line)) in
    <[sh := (sb !!! sh) ++ line ++ [LF]]> sb.

(** The two local maps hold the same statistics: the entry of a name in
    the map keyed by names is the entry of its identifier in the map keyed
    by identifiers. *)
Definition sameStats (mS : gmap (list byte) Stat) (m : gmap Z Stat) (inn : Intern) : Prop :=
  (∀ id k, Name inn id = Some k → mS !! k = m !! id) ∧
  (∀ k, k ∉ names inn → mS !! k = None) ∧
  keysValid m inn.

(** [readEnd] of the goroutine of a worker whose work ends at [end_]. *)
Definition readEndOf (file : list byte) (end_ : Z) : Z :=
  if decide (end_ + Part002.overlap >= Z.of_nat (length file))
  then Z.of_nat (length file) - 1 else end_ + Part002.overlap.

(** * Properties *)

Lemma int32_id z : - 2 ^ 31 ≤ z < 2 ^ 31 → int32 z = z.
Proof. intros H. unfold int32. rewrite Z.mod_small; lia. Qed.

Lemma int64_id z : - 2 ^ 63 ≤ z < 2 ^ 63 → int64 z = z.
Proof. intros H. unfold int64. rewrite Z.mod_small; lia. Qed.

Lemma shardOf_lt h : (shardOf h < 256)%nat.
Proof.
  unfold shardOf. change 255 with (Z.ones 8).
  rewrite Z.land_ones by lia.
  pose proof (Z.mod_pos_bound h (2 ^ 8)). lia.
Qed.

(** ** The interner, one call at a time *)

Lemma index_Some {A} (l : list A) i x :
  index l i = Some x ↔ 0 ≤ i ∧ l !! Z.to_nat i = Some x.
Proof. unfold index. case_decide; naive_solver. Qed.

Lemma index_of_nat {A} (l : list A) (i : nat) : index l (Z.of_nat i) = l !! i.
Proof. unfold index. case_decide; [by rewrite Nat2Z.id | lia]. Qed.


Lemma index_app_l {A} (l k : list A) i x :
  index l i = Some x → index (l ++ k) i = Some x.
Proof.
  rewrite !index_Some. intros [? H]. split; [done|].
  by apply lookup_app_l_Some.
Qed.

Lemma eqBytes_true s b : length s = length b → eqBytes s b = true ↔ s = b.
Proof.
  revert b. induction s as [|x s IH]; intros [|y b] Hl; simpl in *; try done.
  case_decide as Hxy.
  - subst. rewrite IH by lia. naive_solver.
  - split; [done | congruence].
Qed.

Lemma equalSB_true s b : equalSB s b = true ↔ s = b.
Proof.
  unfold equalSB. case_decide as Hl.
  - by apply eqBytes_true.
  - split; [done | intros ->; done].
Qed.

Lemma scanIds_spec nms ids b :
  (∀ id, id ∈ ids → 0 ≤ id < Z.of_nat (length nms)) →
  (∃ id, scanIds nms ids b = Some (Some id) ∧ id ∈ ids ∧ index nms id = Some b)
  ∨ (scanIds nms ids b = Some None ∧ ∀ id, id ∈ ids → index nms id ≠ Some b).
Proof.
  induction ids as [|id ids IH]; intros Hv; simpl.
  - right. split; [done|]. intros id Hid. by apply elem_of_nil in Hid.
  - destruct (index nms id) as [s|] eqn:Hs.
    + destruct (equalSB s b) eqn:He.
      * apply equalSB_true in He as ->. left. exists id.
        split_and!; [done | apply list_elem_of_here | done].
      * destruct IH as [(id' & -> & Hin & Hn) | [-> Hn]].
        { intros ??. apply Hv. by apply list_elem_of_further. }
        -- left. exists id'. split_and!; [done | by apply list_elem_of_further | done].
        -- right. split; [done|]. intros id' [->|Hin]%elem_of_cons; [|by apply Hn].
           rewrite Hs. intros [= ->]. 
           assert (equalSB b b = true) by by apply equalSB_true. congruence.
    + exfalso. destruct (Hv id) as [H0 Hlt]; [apply list_elem_of_here|].
      unfold index in Hs. case_decide; [|lia].
      apply lookup_ge_None in Hs. lia.
Qed.

Lemma wf_newIntern : wfIntern newIntern.
Proof.
  unfold newIntern. split; cbn [shards names].
  - apply NoDup_nil_2.
  - by rewrite length_replicate.
  - intros si h ids id H. 
    destruct (decide (si < 256)%nat).
    + rewrite lookup_total_replicate_2 in H by done. by rewrite lookup_empty in H.
    + rewrite list_lookup_total_alt in H.
      rewrite (proj1 (lookup_replicate_None _ _ _)) in H by lia.
      simpl in H. by rewrite lookup_empty in H.
  - intros i s H. by rewrite lookup_nil in H.
Qed.

Lemma GetOrAdd_hit inn b (i : nat) :
  wfIntern inn → names inn !! i = Some b →
  GetOrAdd inn b = Some (Z.of_nat i, inn).
Proof.
  intros Hwf Hi. unfold GetOrAdd.
  destruct (wf_complete _ Hwf _ _ Hi) as (ids & Hids & Hin).
  rewrite Hids. simpl.
  destruct (scanIds_spec (names inn) ids b) as [(id & -> & Hid & Hn) | [_ Hn]].
  - intros id Hid. by eapply wf_sound.
  - apply index_Some in Hn as [H0 Hn].
    pose proof (NoDup_lookup _ _ _ _ (wf_nodup _ Hwf) Hi Hn) as ->.
    by rewrite Z2Nat.id.
  - exfalso. apply (Hn _ Hin). by rewrite index_of_nat.
Qed.

Lemma GetOrAdd_miss inn b :
  wfIntern inn → b ∉ names inn → Z.of_nat (length (names inn)) < 2 ^ 31 →
  GetOrAdd inn b = Some (Z.of_nat (length (names inn)), addName inn b).
Proof.
  intros Hwf Hb Hlen. unfold GetOrAdd, addName.
  set (h := fnv1a64 b). set (sh := shards inn !!! shardOf h).
  set (ids := default [] (sh !! h)).
  destruct (scanIds_spec (names inn) ids b) as [(id & _ & _ & Hn) | [-> _]].
  - intros id Hid. subst ids. destruct (sh !! h) as [l|] eqn:Hl; simpl in Hid.
    + by eapply wf_sound.
    + by apply elem_of_nil in Hid.
  - exfalso. apply Hb. apply index_Some in Hn as [_ Hn].
    by eapply list_elem_of_lookup_2.
  - by rewrite int32_id by lia.
Qed.

Lemma wf_addName inn b :
  wfIntern inn → b ∉ names inn → wfIntern (addName inn b).
Proof.
  intros Hwf Hb. unfold addName.
  set (h := fnv1a64 b). set (sh := shards inn !!! shardOf h).
  set (ids := default [] (sh !! h)).
  pose proof (shardOf_lt h) as Hsh.
  split; simpl.
  - apply NoDup_app. split_and!; [by apply wf_nodup | | apply NoDup_singleton].
    intros x Hx Hx'. apply list_elem_of_singleton in Hx' as ->. done.
  - rewrite length_insert. by apply wf_length.
  - intros si h' ids' id Hl Hid. rewrite length_app. simpl.
    rewrite list_lookup_total_insert in Hl. case_decide as Hd.
    + destruct Hd as [<- _]. rewrite lookup_insert in Hl. case_decide as Hh.
      * injection Hl as <-. apply elem_of_app in Hid as [Hid | Hid].
        -- subst ids. destruct (sh !! h) as [l|] eqn:Hl'; simpl in Hid.
           ++ pose proof (wf_sound _ Hwf _ _ _ _ Hl' Hid). lia.
           ++ by apply elem_of_nil in Hid.
        -- apply list_elem_of_singleton in Hid as ->. lia.
      * pose proof (wf_sound _ Hwf _ _ _ _ Hl Hid). lia.
    + pose proof (wf_sound _ Hwf _ _ _ _ Hl Hid). lia.
  - intros i s Hi. 
    assert (Hcase : names inn !! i = Some s ∨ (i = length (names inn) ∧ s = b)).
    { apply lookup_app_Some in Hi as [Hi | [Hge Hi]]; [by left|right].
      apply list_lookup_singleton_Some in Hi as [? ->]. split; [lia | done]. }
    rewrite list_lookup_total_insert.
    destruct Hcase as [Hi' | [-> ->]].
    + destruct (wf_complete _ Hwf _ _ Hi') as (ids' & Hids' & Hin).
      case_decide as Hd.
      * destruct Hd as [Hd _]. rewrite lookup_insert. case_decide as Hh.
        -- exists (ids ++ [Z.of_nat (length (names inn))]). split; [done|].
           apply elem_of_app. left. subst ids sh. rewrite Hh.
           rewrite Hh in Hd. by rewrite Hids'.
        -- exists ids'. split; [|done]. subst sh. by rewrite Hd.
      * by exists ids'.
    + fold h. case_decide as Hd.
      * rewrite lookup_insert_eq. eexists. split; [done|].
        apply elem_of_app. right. apply list_elem_of_singleton. done.
      * exfalso. apply Hd. split; [done|]. rewrite (wf_length _ Hwf). done.
Qed.

Lemma NoDup_length_distinct (l ks : list (list byte)) :
  NoDup l → (∀ x, x ∈ l → x ∈ ks) → (length l ≤ distinct ks)%nat.
Proof.
  intros Hnd Hsub. unfold distinct. apply submseteq_length.
  apply NoDup_submseteq; [done|]. intros x Hx. apply elem_of_remove_dups. auto.
Qed.

Lemma NoDup_length_distinct_eq (l ks : list (list byte)) :
  NoDup l → (∀ x, x ∈ l ↔ x ∈ ks) → length l = distinct ks.
Proof.
  intros Hnd Hsub. unfold distinct. apply Permutation_length.
  apply NoDup_Permutation; [done | apply NoDup_remove_dups |].
  intros x. rewrite elem_of_remove_dups. apply Hsub.
Qed.

(** One call on a well-formed interner: it does not panic, the identifier
    resolves to the key, the name table only grows at its end, and it grows
    exactly when the key is new. *)
Lemma GetOrAdd_spec inn b :
  wfIntern inn → Z.of_nat (length (names inn)) < 2 ^ 31 →
  ∃ id inn',
    GetOrAdd inn b = Some (id, inn') ∧ wfIntern inn' ∧
    index (names inn') id = Some b ∧
    ((b ∈ names inn ∧ inn' = inn) ∨
     ((b ∉ names inn) ∧ names inn' = names inn ++ [b])).
Proof.
  intros Hwf Hlen. destruct (decide (b ∈ names inn)) as [Hin | Hnin].
  - apply list_elem_of_lookup in Hin as Hi. destruct Hi as [i Hi].
    exists (Z.of_nat i), inn. split_and!; [by apply GetOrAdd_hit | done | | by left].
    by rewrite index_of_nat.
  - exists (Z.of_nat (length (names inn))), (addName inn b).
    split_and!; [by apply GetOrAdd_miss | by apply wf_addName | | by right].
    rewrite index_of_nat. unfold addName. cbn [names].
    by rewrite lookup_app_r, Nat.sub_diag.
Qed.

Lemma internSeq_spec ks : ∀ inn,
  wfIntern inn →
  Z.of_nat (distinct (names inn ++ ks)) < 2 ^ 31 →
  ∃ ids inn',
    internSeq inn ks = Some (ids, inn') ∧ wfIntern inn' ∧
    (names inn `prefix_of` names inn') ∧
    (∀ k, k ∈ names inn' ↔ k ∈ names inn ∨ k ∈ ks) ∧
    Forall2 (fun k id => index (names inn') id = Some k) ks ids.
Proof.
  induction ks as [|k ks IH]; intros inn Hwf Hb; simpl.
  - exists [], inn. split_and!; [done | done | done | | constructor].
    intros k. rewrite elem_of_nil. naive_solver.
  - assert (Hlen : Z.of_nat (length (names inn)) < 2 ^ 31).
    { assert (length (names inn) ≤ distinct (names inn ++ k :: ks))%nat; [|lia].
      apply NoDup_length_distinct; [by apply wf_nodup|].
      intros; apply elem_of_app; by left. }
    destruct (GetOrAdd_spec inn k Hwf Hlen) as (id & inn1 & -> & Hwf1 & Hid & Hcase).
    assert (Hel : ∀ x, x ∈ names inn1 ++ ks ↔ x ∈ names inn ++ k :: ks).
    { intros x. rewrite !elem_of_app, elem_of_cons.
      destruct Hcase as [[Hin ->] | [_ ->]].
      - split; [naive_solver|]. intros [?|[->|?]]; auto.
      - rewrite elem_of_app, list_elem_of_singleton. naive_solver. }
    assert (Hpre : (names inn) `prefix_of` (names inn1)).
    { destruct Hcase as [[_ ->] | [_ ->]]; [done | by apply prefix_app_r]. }
    destruct (IH inn1 Hwf1) as (ids & inn2 & -> & Hwf2 & Hpre2 & Hel2 & Hall).
    { assert (distinct (names inn1 ++ ks) = distinct (names inn ++ k :: ks)) as ->; [|done].
      unfold distinct. apply Permutation_length.
      apply NoDup_Permutation; [apply NoDup_remove_dups..|].
      intros x. rewrite !elem_of_remove_dups. apply Hel. }
    exists (id :: ids), inn2. split_and!; [done | done | by etrans | | ].
    + intros x. rewrite Hel2, elem_of_cons.
      specialize (Hel x). rewrite !elem_of_app, elem_of_cons in Hel. 
      destruct Hcase as [[Hin ->] | [_ Hn]]; [naive_solver|].
      rewrite Hn, elem_of_app, list_elem_of_singleton. naive_solver.
    + constructor; [|done].
      destruct Hpre2 as [l ->]. by apply index_app_l.
Qed.

Lemma internSeq_length inn ks ids inn' :
  internSeq inn ks = Some (ids, inn') → length ids = length ks.
Proof.
  revert inn ids. induction ks as [|k ks IH]; intros inn ids H; simpl in H.
  - by injection H as <- <-.
  - destruct (GetOrAdd inn k) as [[id inn1]|]; [|done].
    destruct (internSeq inn1 ks) as [[ids' inn2]|] eqn:E; [|done].
    injection H as <- <-. simpl. f_equal. by eapply IH.
Qed.

(** Calls made one after the other: two calls return the same identifier
    exactly when they pass the same bytes, whatever the hashes are. *)
Lemma intern_ids_agree_with_bytes (ks : list (list byte)) :
  Z.of_nat (distinct ks) < 2 ^ 31 →
  ∃ ids inn,
    internSeq newIntern ks = Some (ids, inn) ∧ length ids = length ks ∧
    ∀ (i j : nat) b1 b2 id1 id2,
      ks !! i = Some b1 → ks !! j = Some b2 →
      ids !! i = Some id1 → ids !! j = Some id2 →
      (id1 = id2 ↔ b1 = b2).
Proof.
  intros Hb.
  destruct (internSeq_spec ks newIntern wf_newIntern Hb)
    as (ids & inn & Hrun & Hwf & _ & _ & Hall).
  exists ids, inn. split_and!; [done | by eapply internSeq_length |].
  intros i j b1 b2 id1 id2 Hi Hj Hi' Hj'.
  pose proof (Forall2_lookup_lr _ _ _ _ _ _ Hall Hi Hi') as H1.
  pose proof (Forall2_lookup_lr _ _ _ _ _ _ Hall Hj Hj') as H2.
  cbv beta in H1, H2. split.
  - intros ->. congruence.
  - intros ->. apply index_Some in H1 as [? H1]. apply index_Some in H2 as [? H2].
    pose proof (NoDup_lookup _ _ _ _ (wf_nodup _ Hwf) H1 H2). lia.
Qed.



(** ** The scanner without indices *)

Lemma advance_refl rest i : advance rest i rest i.
Proof. exists 0%nat. split_and!; [done | lia | lia]. Qed.

Lemma advance_step c rest i : advance (c :: rest) i rest (i + 1).
Proof. exists 1%nat. split_and!; [done | lia | simpl; lia]. Qed.

Lemma advance_trans r1 i1 r2 i2 r3 i3 :
  advance r1 i1 r2 i2 → advance r2 i2 r3 i3 → advance r1 i1 r3 i3.
Proof.
  intros (k & -> & -> & Hk) (k' & -> & -> & Hk').
  rewrite length_drop in Hk'.
  exists (k + k')%nat. rewrite drop_drop. split_and!; [done | lia | lia].
Qed.

Lemma advance_cons c rest i rest' i' :
  advance rest (i + 1) rest' i' → advance (c :: rest) i rest' i'.
Proof. intros H. eapply advance_trans; [apply advance_step | done]. Qed.

Lemma advance_length rest i rest' i' :
  advance rest i rest' i' → (length rest' ≤ length rest)%nat.
Proof. intros (k & -> & _ & _). rewrite length_drop. lia. Qed.

Lemma advance_drop buf rest i rest' i' :
  0 ≤ i → drop (Z.to_nat i) buf = rest → advance rest i rest' i' →
  0 ≤ i' ∧ drop (Z.to_nat i') buf = rest'.
Proof.
  intros Hi <- (k & -> & -> & _). split; [lia|].
  rewrite drop_drop. f_equal. lia.
Qed.

Lemma parseSign_advance rest i :
  advance rest i (parseSign rest i).2.1 (parseSign rest i).2.2.
Proof.
  destruct rest as [|c rest]; simpl; [apply advance_refl|].
  repeat case_decide; simpl; auto using advance_refl, advance_step.
Qed.

Lemma parseInt_advance rest : ∀ i acc,
  advance rest i (parseInt rest i acc).2.1 (parseInt rest i acc).2.2.
Proof.
  induction rest as [|c rest IH]; intros i acc; simpl; [apply advance_refl|].
  destruct (isDigit c); simpl; [|apply advance_refl].
  apply advance_cons, IH.
Qed.

Lemma skipDot_advance rest i :
  advance rest i (skipDot rest i).1 (skipDot rest i).2.
Proof.
  destruct rest as [|c rest]; simpl; [apply advance_refl|].
  case_decide; simpl; auto using advance_refl, advance_step.
Qed.

Lemma parseDec_advance rest i :
  advance rest i (parseDec rest i).2.1 (parseDec rest i).2.2.
Proof.
  destruct rest as [|c rest]; simpl; [apply advance_refl|].
  destruct (isDigit c); simpl; auto using advance_refl, advance_step.
Qed.

Lemma skipLine_advance rest : ∀ i,
  advance rest i (skipLine rest i).1 (skipLine rest i).2.
Proof.
  induction rest as [|c rest IH]; intros i; simpl; [apply advance_refl|].
  case_decide; simpl; [apply advance_step|]. apply advance_cons, IH.
Qed.

Lemma parseTemp_advance rest i :
  advance rest i (parseTemp rest i).2.1 (parseTemp rest i).2.2.
Proof.
  unfold parseTemp.
  pose proof (parseSign_advance rest i) as H1.
  destruct (parseSign rest i) as [sg [r1 i1]]; simpl in H1.
  pose proof (parseInt_advance r1 i1 0) as H2.
  destruct (parseInt r1 i1 0) as [ip [r2 i2]]; simpl in H2.
  pose proof (skipDot_advance r2 i2) as H3.
  destruct (skipDot r2 i2) as [r3 i3]; simpl in H3.
  pose proof (parseDec_advance r3 i3) as H4.
  destruct (parseDec r3 i3) as [dd [r4 i4]]; simpl in H4.
  pose proof (skipLine_advance r4 i4) as H5.
  destruct (skipLine r4 i4) as [r5 i5]; simpl in *.
  eauto using advance_trans.
Qed.

(** The value and the bytes left do not depend on the index. *)
Lemma parseSign_index rest i j :
  (parseSign rest i).1 = (parseSign rest j).1 ∧
  (parseSign rest i).2.1 = (parseSign rest j).2.1.
Proof. destruct rest; simpl; repeat case_decide; done. Qed.

Lemma parseInt_index rest : ∀ i j acc,
  (parseInt rest i acc).1 = (parseInt rest j acc).1 ∧
  (parseInt rest i acc).2.1 = (parseInt rest j acc).2.1.
Proof. induction rest as [|c rest IH]; intros; simpl; [done|]. destruct (isDigit c); auto. Qed.

Lemma skipDot_index rest i j : (skipDot rest i).1 = (skipDot rest j).1.
Proof. destruct rest; simpl; repeat case_decide; done. Qed.

Lemma parseDec_index rest i j :
  (parseDec rest i).1 = (parseDec rest j).1 ∧
  (parseDec rest i).2.1 = (parseDec rest j).2.1.
Proof. destruct rest as [|c rest]; simpl; [done|]. destruct (isDigit c); done. Qed.

Lemma skipLine_index rest : ∀ i j, (skipLine rest i).1 = (skipLine rest j).1.
Proof. induction rest as [|c rest IH]; intros; simpl; [done|]. case_decide; auto. Qed.

Lemma parseTemp_index rest i j :
  (parseTemp rest i).1 = (parseTemp rest j).1 ∧
  (parseTemp rest i).2.1 = (parseTemp rest j).2.1.
Proof.
  unfold parseTemp.
  destruct (parseSign_index rest i j) as [E1 E1'].
  destruct (parseSign rest i) as [sg [r1 i1]], (parseSign rest j) as [sg' [r1' j1]].
  simpl in E1, E1'. subst sg' r1'.
  destruct (parseInt_index r1 i1 j1 0) as [E2 E2'].
  destruct (parseInt r1 i1 0) as [ip [r2 i2]], (parseInt r1 j1 0) as [ip' [r2' j2]].
  simpl in E2, E2'. subst ip' r2'.
  pose proof (skipDot_index r2 i2 j2) as E3.
  destruct (skipDot r2 i2) as [r3 i3], (skipDot r2 j2) as [r3' j3].
  simpl in E3. subst r3'.
  destruct (parseDec_index r3 i3 j3) as [E4 E4'].
  destruct (parseDec r3 i3) as [dd [r4 i4]], (parseDec r3 j3) as [dd' [r4' j4]].
  simpl in E4, E4'. subst dd' r4'.
  pose proof (skipLine_index r4 i4 j4) as E5.
  destruct (skipLine r4 i4) as [r5 i5], (skipLine r4 j4) as [r5' j5].
  simpl in E5. subst r5'. done.
Qed.

Lemma slice_nil {A} (buf : list A) i :
  0 ≤ i ≤ Z.of_nat (length buf) → slice buf i i = Some [].
Proof.
  intros H. unfold slice. rewrite decide_True by lia.
  by rewrite Z.sub_diag.
Qed.

Lemma slice_snoc {A} (buf : list A) ls i key b rest :
  ls ≤ i → slice buf ls i = Some key → drop (Z.to_nat i) buf = b :: rest →
  slice buf ls (i + 1) = Some (key ++ [b]).
Proof.
  unfold slice. intros Hle Hs Hd.
  case_decide as Hb; [|done]. injection Hs as <-.
  assert (Hlt : (Z.to_nat i < length buf)%nat).
  { destruct (decide (Z.to_nat i < length buf)%nat); [done|].
    rewrite drop_ge in Hd by lia. done. }
  rewrite decide_True by lia. f_equal.
  replace (Z.to_nat (i + 1 - ls)) with (S (Z.to_nat (i - ls))) by lia.
  assert (Hb' : drop (Z.to_nat ls) buf !! Z.to_nat (i - ls) = Some b).
  { rewrite lookup_drop. replace (Z.to_nat ls + Z.to_nat (i - ls))%nat with (Z.to_nat i) by lia.
    pose proof (lookup_drop buf (Z.to_nat i) 0) as H0.
    rewrite Hd, Nat.add_0_r in H0. by rewrite <- H0. }
  by erewrite take_S_r.
Qed.

Lemma drop_cons_succ {A} (buf : list A) i b rest :
  0 ≤ i → drop (Z.to_nat i) buf = b :: rest →
  drop (Z.to_nat (i + 1)) buf = rest ∧ i + 1 ≤ Z.of_nat (length buf).
Proof.
  intros Hi Hd. split.
  - replace (Z.to_nat (i + 1)) with (Z.to_nat i + 1)%nat by lia.
    by rewrite <- drop_drop, Hd.
  - destruct (decide (Z.to_nat i < length buf)%nat); [lia|].
    rewrite drop_ge in Hd by lia. done.
Qed.

Lemma findSemi_spec buf rest : ∀ i ls key,
  0 ≤ ls → ls ≤ i → drop (Z.to_nat i) buf = rest → slice buf ls i = Some key →
  match splitSemi rest key with
  | None => (findSemi rest i ls).1.1 = -1
  | Some (k, r) =>
      ∃ ls1 semi i1,
        findSemi rest i ls = (semi, (r, i1), ls1) ∧ 0 ≤ semi ∧
        slice buf ls1 semi = Some k ∧ advance rest i r i1 ∧
        (length r < length rest)%nat
  end.
Proof.
  induction rest as [|b rest IH]; intros i ls key Hls Hi Hd Hs; simpl; [done|].
  destruct (drop_cons_succ buf i b rest ltac:(lia) Hd) as [Hd' Hlen].
  case_decide as Hsemi.
  - exists ls, i, (i + 1). split_and!; [done | lia | done | apply advance_step | simpl; lia].
  - case_decide as Hlf.
    + specialize (IH (i + 1) (i + 1) [] ltac:(lia) ltac:(lia) Hd'
                    (slice_nil buf (i + 1) ltac:(lia))).
      destruct (splitSemi rest []) as [[k r]|]; [|done].
      destruct IH as (ls1 & semi & i1 & -> & ? & ? & ? & ?).
      exists ls1, semi, i1. split_and!; [done.. | by apply advance_cons | simpl; lia].
    + specialize (IH (i + 1) ls (key ++ [b]) ltac:(lia) ltac:(lia) Hd'
                    (slice_snoc buf ls i key b rest Hi Hs Hd)).
      destruct (splitSemi rest (key ++ [b])) as [[k r]|]; [|done].
      destruct IH as (ls1 & semi & i1 & -> & ? & ? & ? & ?).
      exists ls1, semi, i1. split_and!; [done.. | by apply advance_cons | simpl; lia].
Qed.

Lemma splitSemi_length rest : ∀ key k r,
  splitSemi rest key = Some (k, r) → (length r < length rest)%nat.
Proof.
  induction rest as [|b rest IH]; intros key k r H; simpl in *; [done|].
  repeat case_decide.
  - injection H as <- <-. lia.
  - apply IH in H. lia.
  - apply IH in H. lia.
Qed.

Lemma parseLoop_parseLines fuel : ∀ buf rest i m inn,
  0 ≤ i → drop (Z.to_nat i) buf = rest →
  parseLoop fuel buf rest i m inn = parseLines fuel rest m inn.
Proof.
  induction fuel as [|fuel IH]; intros buf rest i m inn Hi Hd; simpl; [done|].
  destruct rest as [|b rest0] eqn:Hrest; [done|]. rewrite <- Hrest in *.
  assert (Hlen : i ≤ Z.of_nat (length buf)).
  { destruct (decide (Z.to_nat i < length buf)%nat); [lia|].
    rewrite drop_ge in Hd by lia. congruence. }
  pose proof (findSemi_spec buf rest i i [] Hi ltac:(lia) Hd (slice_nil buf i ltac:(lia))) as Hf.
  destruct (splitSemi rest []) as [[k r]|].
  - destruct Hf as (ls1 & semi & i1 & -> & Hsemi & Hk & Hadv & _).
    rewrite decide_False by lia.
    destruct (advance_drop _ _ _ _ _ Hi Hd Hadv) as [Hi1 Hd1].
    pose proof (parseTemp_advance r i1) as Hadv2.
    destruct (parseTemp_index r i1 0) as [Et Er].
    destruct (parseTemp r i1) as [t [r2 i2]]. simpl in Et, Er, Hadv2.
    rewrite Hk. destruct (GetOrAdd inn k) as [[id inn']|]; [|done].
    destruct (advance_drop _ _ _ _ _ Hi1 Hd1 Hadv2) as [Hi2 Hd2].
    rewrite <- Et, <- Er. by apply IH.
  - destruct (findSemi rest i i) as [[semi [r1 i1]] ls1]. simpl in Hf. subst semi.
    by rewrite decide_True by lia.
Qed.

Lemma parseLines_fuel fuel : ∀ fuel' rest m inn,
  (length rest ≤ fuel)%nat → (length rest ≤ fuel')%nat →
  parseLines fuel rest m inn = parseLines fuel' rest m inn.
Proof.
  induction fuel as [|fuel IH]; intros fuel' rest m inn H1 H2.
  - destruct rest; [|simpl in H1; lia]. by destruct fuel'.
  - destruct fuel' as [|fuel'].
    + destruct rest; [|simpl in H2; lia]. done.
    + simpl. destruct (splitSemi rest []) as [[k r]|] eqn:Hs; [|done].
      apply splitSemi_length in Hs.
      destruct (GetOrAdd inn k) as [[id inn']|]; [|done].
      pose proof (advance_length _ _ _ _ (parseTemp_advance r 0)).
      apply IH; lia.
Qed.

(** More fuel than bytes left changes nothing: the loop never stops for
    lack of fuel. *)
Lemma parseLoop_fuel fuel buf rest i m inn :
  0 ≤ i → drop (Z.to_nat i) buf = rest → (length rest ≤ fuel)%nat →
  parseLoop fuel buf rest i m inn = parseLoop (length rest) buf rest i m inn.
Proof.
  intros Hi Hd Hf. rewrite !parseLoop_parseLines by done.
  apply parseLines_fuel; lia.
Qed.

(** The loop equation of [parseChunkIDs], free of indices and fuel. *)
Lemma parseChunkIDs_eq rest m inn :
  parseChunkIDs rest m inn =
  match splitSemi rest [] with
  | None => Some (m, inn)
  | Some (k, r) =>
      match GetOrAdd inn k with
      | None => None
      | Some (cityID, inn') =>
          parseChunkIDs (parseTemp r 0).2.1 (record m cityID (parseTemp r 0).1) inn'
      end
  end.
Proof.
  unfold parseChunkIDs. rewrite parseLoop_parseLines by done.
  destruct (length rest) as [|n] eqn:Hn.
  { apply length_zero_iff_nil in Hn as ->. done. }
  cbn [parseLines].
  destruct (splitSemi rest []) as [[k r]|] eqn:Hs; [|done].
  apply splitSemi_length in Hs.
  destruct (GetOrAdd inn k) as [[id inn']|]; [|done].
  rewrite parseLoop_parseLines by done.
  pose proof (advance_length _ _ _ _ (parseTemp_advance r 0)).
  apply parseLines_fuel; lia.
Qed.


(** ** Line-level behaviour of the scanner *)

Lemma splitSemi_key k : ∀ r key,
  ";"%byte ∉ k → LF ∉ k → splitSemi (k ++ ";"%byte :: r) key = Some (key ++ k, r).
Proof.
  induction k as [|c k IH]; intros r key Hs Hl; simpl.
  - by rewrite app_nil_r.
  - apply not_elem_of_cons in Hs as [Hs1 Hs2]. apply not_elem_of_cons in Hl as [Hl1 Hl2].
    rewrite decide_False by done. rewrite decide_False by done.
    rewrite IH by done. by rewrite <- app_assoc.
Qed.

Lemma splitSemi_skip l : ∀ r key,
  ";"%byte ∉ l → splitSemi (l ++ LF :: r) key = splitSemi r [].
Proof.
  induction l as [|c l IH]; intros r key Hs; simpl.
  - done.
  - apply not_elem_of_cons in Hs as [Hs1 Hs2].
    rewrite decide_False by done. case_decide; by rewrite IH.
Qed.

Lemma splitSemi_none l : ∀ key, ";"%byte ∉ l → splitSemi l key = None.
Proof.
  induction l as [|c l IH]; intros key Hs; simpl; [done|].
  apply not_elem_of_cons in Hs as [Hs1 Hs2].
  rewrite decide_False by done. case_decide; by rewrite IH.
Qed.

Lemma isDigit_LF : isDigit LF = false.
Proof. reflexivity. Qed.

Lemma parseSign_line v r i :
  LF ∉ v →
  (parseSign (v ++ LF :: r) i).1 = (parseSign v i).1 ∧
  (parseSign (v ++ LF :: r) i).2.1 = (parseSign v i).2.1 ++ LF :: r ∧
  LF ∉ (parseSign v i).2.1.
Proof.
  intros Hv. destruct v as [|c v]; simpl; [done|].
  apply not_elem_of_cons in Hv as Hv'. destruct Hv' as [Hc Hv'].
  repeat case_decide; simpl; done.
Qed.

Lemma parseInt_line v r : ∀ i acc,
  LF ∉ v →
  (parseInt (v ++ LF :: r) i acc).1 = (parseInt v i acc).1 ∧
  (parseInt (v ++ LF :: r) i acc).2.1 = (parseInt v i acc).2.1 ++ LF :: r ∧
  LF ∉ (parseInt v i acc).2.1.
Proof.
  induction v as [|c v IH]; intros i acc Hv; simpl.
  - done.
  - apply not_elem_of_cons in Hv as Hv'. destruct Hv' as [Hc Hv'].
    destruct (isDigit c); simpl; [by apply IH | done].
Qed.

Lemma skipDot_line v r i :
  LF ∉ v →
  (skipDot (v ++ LF :: r) i).1 = (skipDot v i).1 ++ LF :: r ∧
  LF ∉ (skipDot v i).1.
Proof.
  intros Hv. destruct v as [|c v]; simpl; [done|].
  apply not_elem_of_cons in Hv as Hv'. destruct Hv' as [Hc Hv'].
  case_decide; simpl; done.
Qed.

Lemma parseDec_line v r i :
  LF ∉ v →
  (parseDec (v ++ LF :: r) i).1 = (parseDec v i).1 ∧
  (parseDec (v ++ LF :: r) i).2.1 = (parseDec v i).2.1 ++ LF :: r ∧
  LF ∉ (parseDec v i).2.1.
Proof.
  intros Hv. destruct v as [|c v]; simpl.
  - done.
  - apply not_elem_of_cons in Hv as Hv'. destruct Hv' as [Hc Hv'].
    destruct (isDigit c); simpl; done.
Qed.

Lemma skipLine_line v r : ∀ i,
  LF ∉ v → (skipLine (v ++ LF :: r) i).1 = r ∧ (skipLine v i).1 = [].
Proof.
  induction v as [|c v IH]; intros i Hv; simpl.
  - done.
  - apply not_elem_of_cons in Hv as [Hc Hv'].
    rewrite !decide_False by done. by apply IH.
Qed.

(** A value followed by a line feed: the parser reads the same value as on
    the value alone and stops behind the line feed; without a line feed it
    stops at the end of the buffer. *)
Lemma parseTemp_line v r i :
  LF ∉ v →
  (parseTemp (v ++ LF :: r) i).1 = (parseTemp v 0).1 ∧
  (parseTemp (v ++ LF :: r) i).2.1 = r ∧
  (parseTemp v i).2.1 = [].
Proof.
  intros Hv.
  destruct (parseTemp_index v i 0) as [<- _].
  unfold parseTemp.
  destruct (parseSign_line v r i Hv) as (E1 & E1' & N1).
  destruct (parseSign (v ++ LF :: r) i) as [sg' [r1' j1]], (parseSign v i) as [sg [r1 i1]].
  simpl in E1, E1', N1. subst sg' r1'.
  destruct (parseInt_line r1 r i1 0 N1) as (E2 & E2' & N2).
  destruct (parseInt_index (r1 ++ LF :: r) j1 i1 0) as [F2 F2'].
  destruct (parseInt (r1 ++ LF :: r) j1 0) as [ip' [r2' j2]].
  destruct (parseInt (r1 ++ LF :: r) i1 0) as [ip'' [r2'' j2']].
  destruct (parseInt r1 i1 0) as [ip [r2 i2]].
  simpl in *. subst.
  destruct (skipDot_line r2 r i2 N2) as (E3 & N3).
  pose proof (skipDot_index (r2 ++ LF :: r) j2 i2) as F3.
  destruct (skipDot (r2 ++ LF :: r) j2) as [r3' j3].
  destruct (skipDot (r2 ++ LF :: r) i2) as [r3'' j3'].
  destruct (skipDot r2 i2) as [r3 i3].
  simpl in *. subst.
  destruct (parseDec_line r3 r i3 N3) as (E4 & E4' & N4).
  destruct (parseDec_index (r3 ++ LF :: r) j3 i3) as [F4 F4'].
  destruct (parseDec (r3 ++ LF :: r) j3) as [dd' [r4' j4]].
  destruct (parseDec (r3 ++ LF :: r) i3) as [dd'' [r4'' j4']].
  destruct (parseDec r3 i3) as [dd [r4 i4]].
  simpl in *. subst.
  destruct (skipLine_line r4 r i4 N4) as (E5 & E5').
  pose proof (skipLine_index (r4 ++ LF :: r) j4 i4) as F5.
  destruct (skipLine (r4 ++ LF :: r) j4) as [r5' j5].
  destruct (skipLine (r4 ++ LF :: r) i4) as [r5'' j5'].
  destruct (skipLine r4 i4) as [r5 i5].
  simpl in *. subst. done.
Qed.

Lemma parseChunkIDs_nil m inn : parseChunkIDs [] m inn = Some (m, inn).
Proof. done. Qed.

(** A line [key;value] followed by a line feed. *)
Lemma parse_line k v rest m inn :
  ";"%byte ∉ k → LF ∉ k → LF ∉ v →
  parseChunkIDs (k ++ ";"%byte :: v ++ LF :: rest) m inn =
  match GetOrAdd inn k with
  | None => None
  | Some (cityID, inn') =>
      parseChunkIDs rest (record m cityID (parseTemp v 0).1) inn'
  end.
Proof.
  intros Hk1 Hk2 Hv. rewrite parseChunkIDs_eq.
  rewrite splitSemi_key by done. simpl.
  destruct (parseTemp_line v rest 0 Hv) as (-> & -> & _). done.
Qed.

(** The same line at the end of the buffer, without line feed. *)
Lemma parse_last_line k v m inn :
  ";"%byte ∉ k → LF ∉ k → LF ∉ v →
  parseChunkIDs (k ++ ";"%byte :: v) m inn =
  match GetOrAdd inn k with
  | None => None
  | Some (cityID, inn') => Some (record m cityID (parseTemp v 0).1, inn')
  end.
Proof.
  intros Hk1 Hk2 Hv. rewrite parseChunkIDs_eq.
  rewrite splitSemi_key by done. simpl.
  destruct (parseTemp_line v [] 0 Hv) as (_ & _ & ->). done.
Qed.

(** A line without semicolon is passed over. *)
Lemma parse_skip l rest m inn :
  ";"%byte ∉ l → parseChunkIDs (l ++ LF :: rest) m inn = parseChunkIDs rest m inn.
Proof.
  intros Hl. rewrite parseChunkIDs_eq, splitSemi_skip by done.
  by rewrite <- parseChunkIDs_eq.
Qed.

Lemma parse_skip_last l m inn :
  ";"%byte ∉ l → parseChunkIDs l m inn = Some (m, inn).
Proof. intros Hl. by rewrite parseChunkIDs_eq, splitSemi_none. Qed.

Lemma split_first (c : byte) (v : list byte) :
  c ∈ v → ∃ k r, v = k ++ c :: r ∧ c ∉ k.
Proof.
  induction v as [|x v IH]; intros Hin; [by apply elem_of_nil in Hin|].
  destruct (decide (x = c)) as [->|Hne].
  - exists [], v. split; [done | apply not_elem_of_nil].
  - apply elem_of_cons in Hin as [->|Hin]; [done|].
    destruct (IH Hin) as (k & r & -> & Hk).
    exists (x :: k), r. split; [done|]. apply not_elem_of_cons. split; [congruence | done].
Qed.

Lemma complete_app l1 l2 : complete l1 → complete l2 → complete (l1 ++ l2).
Proof.
  induction 1 as [|v l Hv Hl IH]; intros H2; [done|].
  rewrite <- app_assoc. simpl. constructor; auto.
Qed.

Lemma complete_cons c l : complete l → c = LF ∨ l ≠ [] → complete (c :: l).
Proof.
  intros Hl Hc. destruct (decide (c = LF)) as [->|Hne].
  - apply (complete_line [] l); [apply not_elem_of_nil | done].
  - destruct Hl as [|v l Hv Hl]; [naive_solver|].
    apply (complete_line (c :: v) l); [|done].
    apply not_elem_of_cons. split; [congruence | done].
Qed.

Lemma complete_snoc p : complete (p ++ [LF]).
Proof.
  induction p as [|c p IH]; simpl.
  - apply (complete_line [] []); [apply not_elem_of_nil | constructor].
  - apply complete_cons; [done|]. right. by destruct p.
Qed.

(** Every buffer is a run of whole lines followed by an unterminated rest. *)
Lemma complete_decompose buf :
  ∃ pre last, buf = pre ++ last ∧ complete pre ∧ LF ∉ last.
Proof.
  induction buf as [|c buf (pre & last & -> & Hpre & Hlast)].
  - exists [], []. split_and!; [done | constructor | apply not_elem_of_nil].
  - destruct Hpre as [|v l Hv Hl].
    + destruct (decide (c = LF)) as [->|Hne].
      * exists [LF], last. split_and!; [done | apply (complete_snoc []) | done].
      * exists [], (c :: last). split_and!; [done | constructor |].
        apply not_elem_of_cons. split; [congruence | done].
    + exists (c :: v ++ LF :: l), last. split_and!; [done | | done].
      apply complete_cons; [by constructor|]. right. by destruct v.
Qed.

(** Scanning whole lines and then the rest is scanning the concatenation. *)
Lemma parse_app pre rest : complete pre → ∀ m inn,
  parseChunkIDs (pre ++ rest) m inn =
  andThen (parseChunkIDs pre m inn) (parseChunkIDs rest).
Proof.
  induction 1 as [|v l Hv Hl IH]; intros m inn; [done|].
  rewrite <- app_assoc. simpl.
  destruct (decide (";"%byte ∈ v)) as [Hin | Hnin].
  - destruct (split_first _ _ Hin) as (k & val & -> & Hk).
    apply not_elem_of_app in Hv as [Hk' Hval]. apply not_elem_of_cons in Hval as [_ Hval].
    rewrite <- !app_assoc. simpl.
    rewrite !parse_line by done.
    destruct (GetOrAdd inn k) as [[id inn']|]; [|done]. apply IH.
  - rewrite !parse_skip by done. apply IH.
Qed.


(** The end of the buffer ends the last line. *)
Lemma parse_unterminated buf m inn :
  parseChunkIDs (buf ++ [LF]) m inn = parseChunkIDs buf m inn.
Proof.
  destruct (complete_decompose buf) as (pre & last & -> & Hpre & Hlast).
  rewrite <- app_assoc, !parse_app by done.
  destruct (parseChunkIDs pre m inn) as [[m1 inn1]|]; [simpl|done].
  destruct (decide (";"%byte ∈ last)) as [Hin | Hnin].
  - destruct (split_first _ _ Hin) as (k & v & -> & Hk).
    apply not_elem_of_app in Hlast as [Hk' Hv]. apply not_elem_of_cons in Hv as [_ Hv].
    rewrite <- app_assoc. simpl.
    rewrite parse_line, parse_last_line by done.
    destruct (GetOrAdd inn1 k) as [[id inn2]|]; [|done].
    by rewrite parseChunkIDs_nil.
  - rewrite parse_skip by done. by rewrite (parse_skip_last last).
Qed.




(** ** Values of the form [sign]digits['.'digit] *)

(** *** Arithmetic modulo 2^32 *)

Lemma int32_decomp a : ∃ k, int32 a = a + k * 2 ^ 32.
Proof.
  exists (- ((a + 2 ^ 31) / 2 ^ 32)). unfold int32.
  pose proof (Z.div_mod (a + 2 ^ 31) (2 ^ 32) ltac:(lia)). lia.
Qed.

Lemma int32_shift a k : int32 (a + k * 2 ^ 32) = int32 a.
Proof.
  unfold int32. replace (a + k * 2 ^ 32 + 2 ^ 31) with (a + 2 ^ 31 + k * 2 ^ 32) by lia.
  by rewrite Z_mod_plus_full.
Qed.

Lemma int32_add_l a b : int32 (int32 a + b) = int32 (a + b).
Proof.
  destruct (int32_decomp a) as [k ->].
  replace (a + k * 2 ^ 32 + b) with (a + b + k * 2 ^ 32) by lia. apply int32_shift.
Qed.

Lemma int32_add_r a b : int32 (a + int32 b) = int32 (a + b).
Proof. rewrite Z.add_comm, int32_add_l. f_equal. lia. Qed.

Lemma int32_mul_l a b : int32 (int32 a * b) = int32 (a * b).
Proof.
  destruct (int32_decomp a) as [k ->].
  replace ((a + k * 2 ^ 32) * b) with (a * b + (k * b) * 2 ^ 32) by lia. apply int32_shift.
Qed.

Lemma int32_mul_r a b : int32 (a * int32 b) = int32 (a * b).
Proof. rewrite Z.mul_comm, int32_mul_l. f_equal. lia. Qed.

Lemma int32_acc a d : int32 (int32 (int32 a * 10) + d) = int32 (a * 10 + d).
Proof.
  rewrite int32_add_l. rewrite <- int32_add_l, int32_mul_l. by rewrite int32_add_l.
Qed.

(** *** Digits *)

Lemma byteZ_range c : 0 ≤ byteZ c ≤ 255.
Proof. unfold byteZ. pose proof (Byte.to_N_bounded c). lia. Qed.

Lemma isDigit_range c : isDigit c = true ↔ 48 ≤ byteZ c ≤ 57.
Proof.
  unfold isDigit. rewrite andb_true_iff, !bool_decide_eq_true.
  change (byteZ "0") with 48. change (byteZ "9") with 57. done.
Qed.

Lemma digitVal_digit c : isDigit c = true → digitVal c = byteZ c - 48.
Proof.
  intros H%isDigit_range. unfold digitVal. change (byteZ "0") with 48.
  rewrite Z.mod_small by lia. apply int32_id. lia.
Qed.

Lemma isDigit_not_special c :
  isDigit c = true →
  c ≠ "-"%byte ∧ c ≠ "+"%byte ∧ c ≠ "."%byte ∧ c ≠ LF ∧ c ≠ ";"%byte.
Proof. intros H. split_and!; intros ->; done. Qed.

Lemma parseInt_digits ds : ∀ rest i acc,
  Forall (fun c => isDigit c = true) ds →
  match rest with [] => True | c :: _ => isDigit c = false end →
  (parseInt (ds ++ rest) i acc).1 =
    foldl (fun a c => int32 (int32 (a * 10) + digitVal c)) acc ds ∧
  (parseInt (ds ++ rest) i acc).2.1 = rest.
Proof.
  induction ds as [|c ds IH]; intros rest i acc Hds Hrest; simpl.
  - destruct rest as [|c rest]; simpl; [done|]. by rewrite Hrest.
  - apply Forall_cons in Hds as [Hc Hds]. rewrite Hc. by apply IH.
Qed.

Lemma foldl_int32_digits ds : ∀ X,
  Forall (fun c => isDigit c = true) ds →
  foldl (fun a c => int32 (int32 (a * 10) + digitVal c)) (int32 X) ds =
  int32 (foldl (fun a c => a * 10 + (byteZ c - 48)) X ds).
Proof.
  induction ds as [|c ds IH]; intros X Hds; simpl; [done|].
  apply Forall_cons in Hds as [Hc Hds].
  rewrite <- IH by done. f_equal.
  rewrite digitVal_digit by done.
  apply int32_acc.
Qed.

Lemma foldl_digits_nonneg ds : ∀ X,
  0 ≤ X → Forall (fun c => isDigit c = true) ds →
  0 ≤ foldl (fun a c => a * 10 + (byteZ c - 48)) X ds.
Proof.
  induction ds as [|c ds IH]; intros X HX Hds; simpl; [done|].
  apply Forall_cons in Hds as [Hc%isDigit_range Hds]. apply IH; [lia | done].
Qed.

Lemma digitsVal_nonneg ds :
  Forall (fun c => isDigit c = true) ds → 0 ≤ digitsVal ds.
Proof. intros. by apply foldl_digits_nonneg. Qed.

(** The value the parser computes on any text of the form, before any
    range assumption: the scaled value modulo 2^32. *)
Lemma parseTemp_render d tail i :
  wellFormed d → lineEnd tail →
  (parseTemp (render d ++ tail) i).1 = int32 (scaled d) ∧
  (parseTemp (render d ++ tail) i).2.1 = match tail with [] => [] | _ :: r => r end.
Proof.
  intros (Hne & Hds & Hfr) Htail. unfold render, parseTemp, scaled.
  destruct d as [s ds fr]. simpl in *.
  destruct ds as [|c0 ds0] eqn:Eds; [done|]. rewrite <- Eds in *.
  assert (Hc0 : isDigit c0 = true) by (rewrite Eds in Hds; by apply Forall_cons in Hds as [? _]).
  destruct (isDigit_not_special c0 Hc0) as (Hm & Hp & Hdot & Hlf & _).
  (* sign *)
  assert (Hsign : ∀ j, parseSign (signBytes s ++ ds ++ fracBytes fr ++ tail) j =
            (signZ s, (ds ++ fracBytes fr ++ tail, j + Z.of_nat (length (signBytes s))))).
  { intros j. destruct s; simpl.
    - rewrite Eds. simpl. rewrite !decide_False by done. f_equal. f_equal. lia.
    - done.
    - done. }
  rewrite <- !app_assoc. rewrite Hsign.
  (* integer part *)
  assert (Hnd : match fracBytes fr ++ tail with [] => True | c :: _ => isDigit c = false end).
  { destruct fr; simpl; [done|]. destruct Htail as [-> | [r ->]]; done. }
  destruct (parseInt_digits ds (fracBytes fr ++ tail)
              (i + Z.of_nat (length (signBytes s))) 0 Hds Hnd) as [E1 E2].
  destruct (parseInt (ds ++ fracBytes fr ++ tail) _ 0) as [ip [r2 i2]].
  simpl in E1, E2. subst ip r2.
  change 0 with (int32 0) at 1. rewrite foldl_int32_digits by done.
  fold (digitsVal ds).
  (* point, fraction, rest of the line *)
  destruct fr as [c|]; simpl.
  - rewrite Hfr. simpl. rewrite digitVal_digit by done.
    rewrite int32_acc, int32_mul_r.
    destruct Htail as [-> | [r ->]]; done.
  - destruct Htail as [-> | [r ->]]; simpl; by rewrite int32_acc, int32_mul_r.
Qed.

(** *** Rendering tenths with one decimal *)

Lemma digitByte_spec d : 0 ≤ d ≤ 9 → byteZ (digitByte d) = d + 48.
Proof.
  intros H.
  assert (d = 0 ∨ d = 1 ∨ d = 2 ∨ d = 3 ∨ d = 4 ∨ d = 5 ∨ d = 6 ∨ d = 7 ∨ d = 8 ∨ d = 9)
    as Hd by lia.
  repeat (destruct Hd as [-> | Hd]; [reflexivity|]). by subst.
Qed.

Lemma digitByte_isDigit d : 0 ≤ d ≤ 9 → isDigit (digitByte d) = true.
Proof. intros H. apply isDigit_range. rewrite digitByte_spec by done. lia. Qed.

Lemma digitsVal_snoc ds c : digitsVal (ds ++ [c]) = digitsVal ds * 10 + (byteZ c - 48).
Proof. unfold digitsVal. by rewrite foldl_app. Qed.

Lemma digitsOf_spec fuel : ∀ n,
  0 ≤ n < 10 ^ Z.of_nat fuel → fuel ≠ 0%nat →
  digitsOf fuel n ≠ [] ∧
  Forall (fun c => isDigit c = true) (digitsOf fuel n) ∧
  digitsVal (digitsOf fuel n) = n.
Proof.
  induction fuel as [|fuel IH]; intros n Hn Hf; [done|].
  cbn [digitsOf]. case_decide as Hlt.
  -
    split_and!; [done | |].
      * constructor; [apply digitByte_isDigit; lia | constructor].
      * unfold digitsVal. simpl. rewrite digitByte_spec by lia. lia.
  - assert (Hq : 0 ≤ n / 10 < 10 ^ Z.of_nat fuel).
      { rewrite Nat2Z.inj_succ, Z.pow_succ_r in Hn by lia.
        split; [apply Z.div_pos; lia | apply Z.div_lt_upper_bound; lia]. }
      assert (Hf' : fuel ≠ 0%nat).
      { intros ->. simpl in Hq. 
        assert (1 ≤ n / 10) by (apply Z.div_le_lower_bound; lia). lia. }
      destruct (IH _ Hq Hf') as (Hne & Hall & Hval).
      pose proof (Z.mod_pos_bound n 10 ltac:(lia)) as Hm.
      split_and!.
      * intros [? _]%app_eq_nil. done.
      * apply Forall_app. split; [done|].
        constructor; [apply digitByte_isDigit; lia | constructor].
      * rewrite digitsVal_snoc, Hval, digitByte_spec by lia.
        pose proof (Z.div_mod n 10 ltac:(lia)). lia.
Qed.

Lemma fmtTenths_wellFormed t : Z.abs t < 10 ^ 12 → wellFormed (fmtTenths t).
Proof.
  intros Ht. unfold wellFormed, fmtTenths. cbn [dint dfrac].
  assert (Hq : 0 ≤ Z.abs t / 10 < 10 ^ Z.of_nat 12).
  { split; [apply Z.div_pos; lia | apply Z.div_lt_upper_bound; lia]. }
  destruct (digitsOf_spec 12 _ Hq ltac:(done)) as (Hne & Hall & _).
  split_and!; [done | done |].
  apply digitByte_isDigit. pose proof (Z.mod_pos_bound (Z.abs t) 10 ltac:(lia)). lia.
Qed.

Lemma fmtTenths_scaled t : Z.abs t < 10 ^ 12 → scaled (fmtTenths t) = t.
Proof.
  intros Ht. unfold scaled, fmtTenths. cbn [dsign dint dfrac fracVal].
  assert (Hq : 0 ≤ Z.abs t / 10 < 10 ^ Z.of_nat 12).
  { split; [apply Z.div_pos; lia | apply Z.div_lt_upper_bound; lia]. }
  destruct (digitsOf_spec 12 _ Hq ltac:(done)) as (_ & _ & ->).
  pose proof (Z.mod_pos_bound (Z.abs t) 10 ltac:(lia)) as Hm.
  rewrite digitByte_spec by lia.
  pose proof (Z.div_mod (Z.abs t) 10 ltac:(lia)).
  case_decide; simpl; lia.
Qed.

Lemma valueQ_scaled d : Qeq (inject_Z (scaled d)) (Qmult (valueQ d) (inject_Z 10)).
Proof.
  unfold valueQ, scaled, Qeq, Qmult, Qplus, inject_Z. simpl. lia.
Qed.

Lemma valueQ_eq d1 d2 : scaled d1 = scaled d2 → Qeq (valueQ d1) (valueQ d2).
Proof.
  intros H. 
  assert (Qeq (Qmult (valueQ d1) (inject_Z 10)) (Qmult (valueQ d2) (inject_Z 10))) as H'.
  { by rewrite <- !valueQ_scaled, H. }
  apply Qmult_inj_r in H'; [done|]. done.
Qed.

(** C3: on a value of the form [sign]digits['.'digit] that is followed by
    the line feed or the end of the buffer and whose tenfold fits an
    [int32], the parser returns the numeric value times ten as an integer,
    and rendering that integer with one decimal gives back a text of the
    same numeric value. *)
Theorem parseTemp_scaled_roundtrip (d : decimalText) (tail : list byte) (i : Z) :
  wellFormed d → lineEnd tail → - 2 ^ 31 ≤ scaled d < 2 ^ 31 →
  (parseTemp (render d ++ tail) i).1 = scaled d ∧
  Qeq (inject_Z (parseTemp (render d ++ tail) i).1) (Qmult (valueQ d) (inject_Z 10)) ∧
  Qeq (valueQ (fmtTenths (parseTemp (render d ++ tail) i).1)) (valueQ d).
Proof.
  intros Hwf Htail Hr.
  destruct (parseTemp_render d tail i Hwf Htail) as [-> _].
  rewrite int32_id by done. split_and!; [done | apply valueQ_scaled |].
  apply valueQ_eq, fmtTenths_scaled. lia.
Qed.

Example parse_minus_3_2 :
  (parseTemp (bytes "-3.2") 0).1 = -32.
Proof. reflexivity. Qed.

Example parse_4 : (parseTemp (bytes "4") 0).1 = 40.
Proof. reflexivity. Qed.

Lemma parseTemp_scaled_roundtrip_witness :
  (parseTemp (bytes "-3.2" ++ [LF]) 7).1 = -32.
Proof.
  pose (d := {| dsign := Minus; dint := ["3"%byte]; dfrac := Some "2"%byte |}).
  assert (Hwf : wellFormed d).
  { unfold wellFormed, d. simpl. split_and!; [done | by repeat constructor | done]. }
  assert (Htail : lineEnd [LF]) by (right; by exists []).
  assert (Hr : - 2 ^ 31 ≤ scaled d < 2 ^ 31) by (split; vm_compute; [intros H; discriminate H | reflexivity]).
  exact (proj1 (parseTemp_scaled_roundtrip d [LF] 7 Hwf Htail Hr)).
Defined.


(** ** The merge *)

Lemma int64_decomp a : ∃ k, int64 a = a + k * 2 ^ 64.
Proof.
  exists (- ((a + 2 ^ 63) / 2 ^ 64)). unfold int64.
  pose proof (Z.div_mod (a + 2 ^ 63) (2 ^ 64) ltac:(lia)). lia.
Qed.

Lemma int64_shift a k : int64 (a + k * 2 ^ 64) = int64 a.
Proof.
  unfold int64. replace (a + k * 2 ^ 64 + 2 ^ 63) with (a + 2 ^ 63 + k * 2 ^ 64) by lia.
  by rewrite Z_mod_plus_full.
Qed.

Lemma int64_add_l a b : int64 (int64 a + b) = int64 (a + b).
Proof.
  destruct (int64_decomp a) as [k ->].
  replace (a + k * 2 ^ 64 + b) with (a + b + k * 2 ^ 64) by lia. apply int64_shift.
Qed.

Lemma int64_add_r a b : int64 (a + int64 b) = int64 (a + b).
Proof. rewrite Z.add_comm, int64_add_l. f_equal. lia. Qed.

Lemma mergeStat_rule a b :
  mergeStat a b =
  {| min := Z.min (min a) (min b); max := Z.max (max a) (max b);
     sum := int64 (sum a + sum b); count := int64 (count a + count b) |}.
Proof. unfold mergeStat. f_equal; repeat case_decide; lia. Qed.

Lemma mergeStat_comm a b : mergeStat a b = mergeStat b a.
Proof. rewrite !mergeStat_rule. f_equal; try lia; f_equal; lia. Qed.

Lemma mergeStat_assoc a b c :
  mergeStat (mergeStat a b) c = mergeStat a (mergeStat b c).
Proof.
  rewrite !mergeStat_rule. cbn [min max sum count]. f_equal; try lia.
  - rewrite int64_add_l, int64_add_r. f_equal. lia.
  - rewrite int64_add_l, int64_add_r. f_equal. lia.
Qed.

Lemma optMerge_assoc a b c : optMerge (optMerge a b) c = optMerge a (optMerge b c).
Proof. destruct a, b, c; simpl; try done. by rewrite mergeStat_assoc. Qed.

Lemma optMerge_comm a b : optMerge a b = optMerge b a.
Proof. destruct a, b; simpl; try done. by rewrite mergeStat_comm. Qed.

Lemma optMerge_None_r a : optMerge a None = a.
Proof. by destruct a. Qed.

Lemma mergeEntry_lookup g e j :
  mergeEntry g e !! j =
  if decide (e.1 = j) then optMerge (g !! j) (Some e.2) else g !! j.
Proof.
  unfold mergeEntry. destruct e as [k st]. simpl.
  case_decide as Hk.
  - subst. destruct (g !! j); simpl; by rewrite lookup_insert_eq.
  - destruct (g !! k); by rewrite lookup_insert_ne.
Qed.

Lemma mergeEntry_swap g e1 e2 :
  mergeEntry (mergeEntry g e1) e2 = mergeEntry (mergeEntry g e2) e1.
Proof.
  apply map_eq. intros j. rewrite !mergeEntry_lookup.
  repeat case_decide; try done.
  rewrite !optMerge_assoc. f_equal. simpl. by rewrite mergeStat_comm.
Qed.

Lemma foldl_swap_perm {A B} (f : A → B → A) :
  (∀ a x y, f (f a x) y = f (f a y) x) →
  ∀ l l', l ≡ₚ l' → ∀ a, foldl f a l = foldl f a l'.
Proof.
  intros Hf l l' Hp. induction Hp as [|x l l' Hp IH|x y l|l l' l'' _ IH1 _ IH2];
    intros a; simpl.
  - done.
  - apply IH.
  - by rewrite Hf.
  - by rewrite IH1.
Qed.

Lemma mergeEntries_perm g es es' :
  es ≡ₚ es' → mergeEntries g es = mergeEntries g es'.
Proof. intros Hp. by apply foldl_swap_perm; [apply mergeEntry_swap|]. Qed.

Lemma mergeMap_lookup m : ∀ g j, mergeMap g m !! j = optMerge (g !! j) (m !! j).
Proof.
  induction m as [|i x m Hi IH] using map_ind; intros g j.
  - unfold mergeMap. rewrite map_to_list_empty, lookup_empty. simpl.
    by rewrite optMerge_None_r.
  - assert (mergeMap g (<[i:=x]> m) = mergeMap (mergeEntry g (i, x)) m) as ->.
    { unfold mergeMap.
      rewrite (mergeEntries_perm g _ ((i, x) :: map_to_list m)); [done|].
      by apply map_to_list_insert. }
    rewrite IH, mergeEntry_lookup. simpl. case_decide as Hd.
    + subst. by rewrite Hi, lookup_insert_eq, optMerge_None_r.
    + by rewrite lookup_insert_ne.
Qed.

Lemma mergeMap_swap g m1 m2 :
  mergeMap (mergeMap g m1) m2 = mergeMap (mergeMap g m2) m1.
Proof.
  apply map_eq. intros j. rewrite !mergeMap_lookup, !optMerge_assoc.
  f_equal. apply optMerge_comm.
Qed.

Lemma mergeLocals_perm locals locals' :
  locals ≡ₚ locals' → mergeLocals locals = mergeLocals locals'.
Proof. intros Hp. by apply foldl_swap_perm; [apply mergeMap_swap|]. Qed.

Lemma foldl_mergeMap_lookup locals : ∀ g j,
  foldl mergeMap g locals !! j = foldl optMerge (g !! j) ((fun m => m !! j) <$> locals).
Proof.
  induction locals as [|m locals IH]; intros g j; simpl; [done|].
  by rewrite IH, mergeMap_lookup.
Qed.

Lemma mergeLocals_lookup locals j :
  mergeLocals locals !! j = foldl optMerge None ((fun m => m !! j) <$> locals).
Proof. unfold mergeLocals. by rewrite foldl_mergeMap_lookup, lookup_empty. Qed.

Lemma foldl_optMerge_absent (locals : list (gmap Z Stat)) j : ∀ o,
  (∀ m, m ∈ locals → m !! j = None) →
  foldl optMerge o ((fun m => m !! j) <$> locals) = o.
Proof.
  induction locals as [|m locals IH]; intros o H; simpl; [done|].
  rewrite (H m) by apply list_elem_of_here. rewrite optMerge_None_r.
  apply IH. intros m' Hm'. apply H. by apply list_elem_of_further.
Qed.

(** C2: merging a list of local maps in any order gives the same global
    map, and so does taking the entries of one map in any order; the rule
    per key is min of the minima, max of the maxima and the int64 sums of
    [sum] and [count]; it is commutative and associative; a key that only
    one local map holds is copied unchanged. *)
Theorem merge_any_order (locals locals' : list (gmap Z Stat)) :
  locals ≡ₚ locals' →
  mergeLocals locals = mergeLocals locals' ∧
  (∀ g (es es' : list (Z * Stat)), es ≡ₚ es' → mergeEntries g es = mergeEntries g es') ∧
  (∀ a b, mergeStat a b =
          {| min := Z.min (min a) (min b); max := Z.max (max a) (max b);
             sum := int64 (sum a + sum b); count := int64 (count a + count b) |}) ∧
  (∀ a b, - 2 ^ 63 ≤ sum a + sum b < 2 ^ 63 → - 2 ^ 63 ≤ count a + count b < 2 ^ 63 →
          sum (mergeStat a b) = sum a + sum b ∧
          count (mergeStat a b) = count a + count b) ∧
  (∀ a b, mergeStat a b = mergeStat b a) ∧
  (∀ a b c, mergeStat (mergeStat a b) c = mergeStat a (mergeStat b c)) ∧
  (∀ j, mergeLocals locals !! j = foldl optMerge None ((fun m => m !! j) <$> locals)) ∧
  (∀ l1 m l2 j st,
     locals = l1 ++ m :: l2 → m !! j = Some st →
     (∀ m', m' ∈ l1 ++ l2 → m' !! j = None) →
     mergeLocals locals !! j = Some st ∧ mergeLocals locals' !! j = Some st).
Proof.
  intros Hp.
  split_and!.
  - by apply mergeLocals_perm.
  - intros. by apply mergeEntries_perm.
  - apply mergeStat_rule.
  - intros a b Hs Hc. cbn [mergeStat sum count]. by rewrite !int64_id.
  - apply mergeStat_comm.
  - apply mergeStat_assoc.
  - apply mergeLocals_lookup.
  - intros l1 m l2 j st -> Hm Hothers.
    rewrite <- (mergeLocals_perm _ _ Hp). split; [|].
    all: rewrite mergeLocals_lookup, fmap_app, foldl_app; simpl.
    all: rewrite (foldl_optMerge_absent l1)
           by (intros; apply Hothers, elem_of_app; by left).
    all: rewrite Hm; simpl.
    all: apply foldl_optMerge_absent; intros; apply Hothers, elem_of_app; by right.
Qed.


(** ** The partitioner *)

Lemma lfIndex_le rest : (lfIndex rest ≤ length rest)%nat.
Proof. induction rest as [|c r IH]; simpl; [lia|]. case_decide; lia. Qed.

Lemma lfIndex_lookup rest :
  (lfIndex rest < length rest)%nat → rest !! lfIndex rest = Some LF.
Proof.
  induction rest as [|c r IH]; simpl; [lia|].
  case_decide as H; [by subst|]. intros ?. apply IH. lia.
Qed.

Lemma lfIndex_first rest (k : nat) : rest !! k = Some LF → (lfIndex rest ≤ k)%nat.
Proof.
  revert k. induction rest as [|c r IH]; intros k Hk; simpl; [lia|].
  case_decide as H; [lia|]. destruct k as [|k]; simpl in Hk; [congruence|].
  apply IH in Hk. lia.
Qed.

Lemma scanLF_closed rest : ∀ pos bound,
  bound - pos ≤ Z.of_nat (length rest) →
  scanLF rest pos bound =
  Some (if decide (pos < bound)
        then pos + Z.min (Z.of_nat (lfIndex rest)) (bound - pos) else pos).
Proof.
  induction rest as [|c r IH]; intros pos bound Hb; simpl in *.
  - rewrite decide_False by lia. by rewrite decide_False by lia.
  - case_decide as Hlt; [|done]. case_decide as Hc.
    + f_equal. lia.
    + rewrite IH by lia. f_equal. case_decide; lia.
Qed.

Section Partition.
Variable data : list byte.
Variable workers : Z.
Hypothesis workers_pos : 0 < workers.

Local Abbreviation len := (Z.of_nat (length data)).
Local Abbreviation chunk := (Z.of_nat (length data) `quot` workers).

Lemma chunk_bounds : 0 ≤ chunk ∧ workers * chunk ≤ len.
Proof.
  rewrite Z.quot_div_nonneg by lia.
  split; [apply Z.div_pos; lia | apply Z.mul_div_le; lia].
Qed.

Lemma naiveEnd_bounds i :
  0 ≤ i < workers →
  i * chunk ≤ naiveEnd data workers chunk i ≤ len.
Proof.
  intros Hi. pose proof chunk_bounds as [Hc Hw]. unfold naiveEnd.
  case_decide; [subst; nia|]. nia.
Qed.

Lemma length_drop_Z (pos : Z) :
  0 ≤ pos ≤ len → Z.of_nat (length (drop (Z.to_nat pos) data)) = len - pos.
Proof. intros H. rewrite length_drop. lia. Qed.

(** Closed form of one partition. *)
Lemma partition_closed i :
  0 ≤ i < workers →
  partition data workers chunk i =
  Some
    ((if decide (i > 0)
      then (if decide (Z.of_nat (lfIndex (drop (Z.to_nat (i * chunk)) data))
                       < naiveEnd data workers chunk i - i * chunk)
            then i * chunk + Z.of_nat (lfIndex (drop (Z.to_nat (i * chunk)) data)) + 1
            else naiveEnd data workers chunk i)
      else i * chunk),
     (if decide (i < workers - 1)
      then naiveEnd data workers chunk i
           + Z.of_nat (lfIndex (drop (Z.to_nat (naiveEnd data workers chunk i)) data))
      else naiveEnd data workers chunk i)).
Proof.
  intros Hi. pose proof chunk_bounds as [Hc Hw].
  pose proof (naiveEnd_bounds i Hi) as Hn.
  unfold partition.
  change (if decide (i = workers - 1) then len else i * chunk + chunk)
    with (naiveEnd data workers chunk i).
  set (nend := naiveEnd data workers chunk i) in *.
  assert (0 ≤ i * chunk) by nia.
  rewrite !scanLF_closed by (rewrite length_drop_Z by lia; lia).
  cbv zeta.
  pose proof (lfIndex_le (drop (Z.to_nat (i * chunk)) data)) as HL1.
  pose proof (lfIndex_le (drop (Z.to_nat nend) data)) as HL2.
  pose proof (length_drop_Z (i * chunk) ltac:(lia)) as E1.
  pose proof (length_drop_Z nend ltac:(lia)) as E2.
  repeat case_decide; f_equal; f_equal; lia.
Qed.
End Partition.

Section Reconstruct.
Variable data : list byte.
Variable workers : Z.
Hypothesis workers_pos : 0 < workers.
Hypothesis HLF : chunksHaveLF data workers.

Local Abbreviation len := (Z.of_nat (length data)).
Local Abbreviation chunk := (Z.of_nat (length data) `quot` workers).

Lemma chunk_lfIndex i :
  0 < i < workers →
  Z.of_nat (lfIndex (drop (Z.to_nat (i * chunk)) data))
    < naiveEnd data workers chunk i - i * chunk.
Proof.
  intros Hi. destruct (HLF i Hi) as (q & Hq & Hlf).
  pose proof (chunk_bounds data workers workers_pos) as [Hc _].
  assert (0 ≤ i * chunk) by nia.
  assert (drop (Z.to_nat (i * chunk)) data !! Z.to_nat (q - i * chunk) = Some LF) as H1.
  { rewrite lookup_drop. rewrite <- Hlf. f_equal. lia. }
  apply lfIndex_first in H1. lia.
Qed.

Lemma partition_chain i :
  0 ≤ i < workers →
  ∃ s e,
    partition data workers chunk i = Some (s, e) ∧
    0 ≤ s ∧ s ≤ e ∧ e ≤ len ∧
    (i = 0 → s = 0) ∧
    (i = workers - 1 → e = len) ∧
    (i < workers - 1 →
       data !! Z.to_nat e = Some LF ∧
       ∃ e', partition data workers chunk (i + 1) = Some (e + 1, e')).
Proof.
  intros Hi.
  pose proof (chunk_bounds data workers workers_pos) as [Hc Hw].
  pose proof (naiveEnd_bounds data workers workers_pos i Hi) as Hn.
  assert (0 ≤ i * chunk) by nia.
  rewrite partition_closed by done.
  eexists _, _. split; [reflexivity|].
  assert (HL : i > 0 → Z.of_nat (lfIndex (drop (Z.to_nat (i * chunk)) data))
                        < naiveEnd data workers chunk i - i * chunk).
  { intros. apply chunk_lfIndex. lia. }
  pose proof (lfIndex_le (drop (Z.to_nat (naiveEnd data workers chunk i)) data)) as HL2.
  rewrite length_drop in HL2.
  split_and!.
  - repeat case_decide; lia.
  - repeat case_decide; lia.
  - case_decide; lia.
  - intros ->. by rewrite decide_False by lia.
  - intros ->. rewrite decide_False by lia. unfold naiveEnd. by rewrite decide_True.
  - intros Hlt. rewrite (decide_True _ _ Hlt).
    assert (Hne : naiveEnd data workers chunk i = (i + 1) * chunk).
    { unfold naiveEnd. rewrite decide_False by lia. lia. }
    rewrite Hne in *.
    pose proof (chunk_lfIndex (i + 1) ltac:(lia)) as HL1.
    pose proof (naiveEnd_bounds data workers workers_pos (i + 1) ltac:(lia)) as Hn1.
    split.
    + pose proof (lfIndex_lookup (drop (Z.to_nat ((i + 1) * chunk)) data)) as Hl.
      rewrite length_drop, lookup_drop in Hl.
      rewrite <- Hl by lia. f_equal. lia.
    + rewrite partition_closed by lia.
      eexists. f_equal. f_equal.
      rewrite decide_True by lia. by rewrite decide_True by lia.
Qed.

Lemma slice_suffix s :
  0 ≤ s ≤ len → slice data s len = Some (drop (Z.to_nat s) data).
Proof.
  intros Hs. unfold slice. rewrite decide_True by lia.
  f_equal. apply take_ge. rewrite length_drop. lia.
Qed.

Lemma slice_then_LF s e :
  0 ≤ s → s ≤ e → data !! Z.to_nat e = Some LF →
  ∃ b, slice data s e = Some b ∧
       b ++ LF :: drop (Z.to_nat (e + 1)) data = drop (Z.to_nat s) data.
Proof.
  intros Hs He Hlf. pose proof (lookup_lt_Some _ _ _ Hlf) as Hlt.
  unfold slice. rewrite decide_True by lia. eexists. split; [reflexivity|].
  rewrite <- (take_drop (Z.to_nat (e - s)) (drop (Z.to_nat s) data)) at 2.
  f_equal. rewrite drop_drop.
  replace (Z.to_nat s + Z.to_nat (e - s))%nat with (Z.to_nat e) by lia.
  replace (Z.to_nat (e + 1)) with (S (Z.to_nat e)) by lia.
  symmetry. by apply drop_S.
Qed.

Lemma joinLF_cons b bs : bs ≠ [] → joinLF (b :: bs) = b ++ LF :: joinLF bs.
Proof. by destruct bs. Qed.

Lemma partitions_suffix (n : nat) : ∀ k,
  0 ≤ k → k + Z.of_nat (S n) = workers →
  ∃ s e parts bufs,
    partition data workers chunk k = Some (s, e) ∧
    mapM (partition data workers chunk) (seqZ k (Z.of_nat (S n))) = Some parts ∧
    slices data parts = Some bufs ∧ bufs ≠ [] ∧
    joinLF bufs = drop (Z.to_nat s) data.
Proof.
  induction n as [|n IH]; intros k Hk Hkn.
  - destruct (partition_chain k ltac:(lia)) as (s & e & Hp & Hs & Hse & He & _ & Hlast & _).
    rewrite (Hlast ltac:(lia)) in *.
    exists s, len, [(s, len)], [drop (Z.to_nat s) data].
    split_and!; [done | | | done | done].
    + change (Z.of_nat 1) with 1. rewrite seqZ_cons by lia. simpl. rewrite Hp. done.
    + unfold slices. simpl. rewrite slice_suffix by lia. done.
  - destruct (partition_chain k ltac:(lia)) as (s & e & Hp & Hs & Hse & He & _ & _ & Hnext).
    destruct (Hnext ltac:(lia)) as (Hlf & e' & Hp').
    destruct (IH (k + 1) ltac:(lia) ltac:(lia))
      as (s1 & e1 & parts & bufs & Hp1 & Hparts & Hbufs & Hne & Hjoin).
    rewrite Hp' in Hp1. injection Hp1 as <- <-.
    destruct (slice_then_LF s e Hs Hse Hlf) as (b & Hb & Hcat).
    exists s, e, ((s, e) :: parts), (b :: bufs).
    split_and!; [done | | | done | ].
    + rewrite seqZ_cons by lia. 
      replace (Z.pred (Z.of_nat (S (S n)))) with (Z.of_nat (S n)) by lia.
      change (Z.succ k) with (k + 1).
      cbn [mapM]. rewrite Hp. cbn. rewrite Hparts. done.
    + unfold slices in *. cbn [mapM]. cbn [fst snd]. rewrite Hb. cbn. rewrite Hbufs. done.
    + rewrite joinLF_cons by done. by rewrite Hjoin.
Qed.

Lemma partitions_rejoin :
  ∃ parts bufs,
    partitions data workers = Some parts ∧
    slices data parts = Some bufs ∧
    joinLF bufs = data.
Proof.
  destruct (partitions_suffix (Z.to_nat workers - 1) 0 ltac:(lia) ltac:(lia))
    as (s & e & parts & bufs & Hp & Hparts & Hbufs & _ & Hjoin).
  destruct (partition_chain 0 ltac:(lia)) as (s' & e' & Hp0 & _ & _ & _ & H0 & _).
  rewrite Hp in Hp0. injection Hp0 as <- <-. rewrite (H0 eq_refl) in Hjoin.
  exists parts, bufs. split_and!; [|done|done].
  unfold partitions. rewrite decide_False by lia. cbv zeta.
  rewrite <- Hparts. f_equal. f_equal. lia.
Qed.
End Reconstruct.

(** ** Workers on line-aligned partitions against one sequential scan *)

Lemma record_mergeEntry m cityID tenth :
  record m cityID tenth = mergeEntry m (cityID, single tenth).
Proof. unfold record, mergeEntry. simpl. by destruct (m !! cityID). Qed.

Lemma mergeMap_empty g : mergeMap g ∅ = g.
Proof. unfold mergeMap. by rewrite map_to_list_empty. Qed.

Lemma mergeMap_record m cityID tenth m' :
  mergeMap m (mergeMap (record ∅ cityID tenth) m') = mergeMap (record m cityID tenth) m'.
Proof.
  apply map_eq. intros j. rewrite !mergeMap_lookup, !record_mergeEntry, !mergeEntry_lookup.
  simpl. rewrite lookup_empty. case_decide.
  - simpl. by rewrite optMerge_assoc.
  - done.
Qed.

(** Scanning into a map [m] is scanning into the empty map and merging the
    result into [m]. *)
Lemma parseLines_merge fuel : ∀ rest m inn,
  parseLines fuel rest m inn =
  match parseLines fuel rest ∅ inn with
  | None => None
  | Some (m', inn') => Some (mergeMap m m', inn')
  end.
Proof.
  induction fuel as [|fuel IH]; intros rest m inn; simpl.
  - by rewrite mergeMap_empty.
  - destruct (splitSemi rest []) as [[k r]|]; [|by rewrite mergeMap_empty].
    destruct (GetOrAdd inn k) as [[id inn1]|]; [|done].
    rewrite IH. rewrite (IH _ (record ∅ _ _)).
    destruct (parseLines fuel _ ∅ inn1) as [[m' inn']|]; [|done].
    by rewrite mergeMap_record.
Qed.

Lemma parseChunkIDs_merge buf m inn :
  parseChunkIDs buf m inn =
  match parseChunkIDs buf ∅ inn with
  | None => None
  | Some (m', inn') => Some (mergeMap m m', inn')
  end.
Proof.
  unfold parseChunkIDs. rewrite !parseLoop_parseLines by done. apply parseLines_merge.
Qed.






(** ** Malformed lines *)

Lemma wholeLines_complete pre : wholeLines pre → complete pre.
Proof. intros [-> | [p ->]]; [constructor | apply complete_snoc]. Qed.

Lemma record_other m cityID tenth j :
  j ≠ cityID → record m cityID tenth !! j = m !! j.
Proof.
  intros Hj. unfold record. destruct (m !! cityID); by rewrite lookup_insert_ne.
Qed.


Lemma not_elem_of_bytes (c : byte) (l : list byte) :
  forallb (fun x => negb (bool_decide (x = c))) l = true → c ∉ l.
Proof.
  induction l as [|x l IH]; simpl; [intros _; apply not_elem_of_nil|].
  intros [Hx Hl]%andb_true_iff. apply not_elem_of_cons. split; [|by apply IH].
  apply negb_true_iff, bool_decide_eq_false in Hx. congruence.
Qed.



(** ** The empty file *)



(** ** The pipeline on inputs with chunks without line feed *)

(** C1, where the code departs from it: the one-line input "A;1" with eight
    workers.  [chunk] is 0, seven workers scan the same range and the line
    is counted seven times; with one worker, and in one scan of the whole
    input, it is counted once. *)
Theorem aggregate_more_workers_than_lines :
  partitions (bytes "A;1" ++ [LF]) 8
    = Some [(0, 3); (0, 3); (0, 3); (0, 3); (0, 3); (0, 3); (0, 3); (4, 4)] ∧
  counts (aggregate (bytes "A;1" ++ [LF]) 8) = Some 7 ∧
  counts (aggregate (bytes "A;1" ++ [LF]) 1) = Some 1 ∧
  counts (parseChunkIDs (bytes "A;1" ++ [LF]) ∅ newIntern) = Some 1 ∧
  entries (aggregate (bytes "A;1" ++ [LF]) 8)
    = Some [(bytes "A", {| min := 10; max := 10; sum := 70; count := 7 |})] ∧
  entries (aggregate (bytes "A;1" ++ [LF]) 1)
    = Some [(bytes "A", {| min := 10; max := 10; sum := 10; count := 1 |})] ∧
  main (Some (bytes "A;1" ++ [LF])) 8
    = Returned [(bytes "A", {| min := 10; max := 10; sum := 70; count := 7 |})] ∧
  main (Some (bytes "A;1" ++ [LF])) 1
    = Returned [(bytes "A", {| min := 10; max := 10; sum := 10; count := 1 |})].
Proof. vm_compute. done. Qed.

(** A line longer than a chunk: the second worker starts inside the line
    and records its tail under the empty key. *)
Lemma aggregate_long_line :
  partitions (bytes "AAAA;1" ++ [LF]) 3 = Some [(0, 6); (4, 6); (7, 7)] ∧
  entries (aggregate (bytes "AAAA;1" ++ [LF]) 3)
    = Some [([], {| min := 10; max := 10; sum := 10; count := 1 |});
            (bytes "AAAA", {| min := 10; max := 10; sum := 10; count := 1 |})] ∧
  entries (aggregate (bytes "AAAA;1" ++ [LF]) 1)
    = Some [(bytes "AAAA", {| min := 10; max := 10; sum := 10; count := 1 |})].
Proof. vm_compute. done. Qed.

(** C9, where the code departs from it: with three workers on the input
    "AAAA;1" the second partition is the non-empty range [4, 6), the bytes
    ";1", and the byte before its start is the letter A, not a line feed. *)
Theorem partition_starts_inside_line :
  partitions (bytes "AAAA;1" ++ [LF]) 3 = Some [(0, 6); (4, 6); (7, 7)] ∧
  slice (bytes "AAAA;1" ++ [LF]) 4 6 = Some (bytes ";1") ∧
  index (bytes "AAAA;1" ++ [LF]) (4 - 1) = Some "A"%byte ∧
  index (bytes "AAAA;1" ++ [LF]) (4 - 1) ≠ Some LF.
Proof. vm_compute. split_and!; done. Qed.

(** When every naive chunk after the first contains a line feed, every
    partition after the first starts right behind a line feed. *)
Lemma partition_start_after_LF data workers i :
  0 < workers → chunksHaveLF data workers → 0 < i < workers →
  ∃ s e,
    partition data workers (Z.of_nat (length data) `quot` workers) i = Some (s, e) ∧
    index data (s - 1) = Some LF.
Proof.
  intros Hw HLF Hi.
  destruct (partition_chain data workers Hw HLF (i - 1) ltac:(lia))
    as (s & e & _ & Hs & Hse & _ & _ & _ & Hnext).
  destruct (Hnext ltac:(lia)) as (Hlf & e' & Hp).
  replace (i - 1 + 1) with i in Hp by lia.
  exists (e + 1), e'. split; [done|].
  replace (e + 1 - 1) with e by lia. apply index_Some. split; [lia | done].
Qed.

(** ** The partitions against the input *)

(** C6 as stated fails: with two workers on "A;1", "B;2" the partitions
    are [0, 7) and [8, 8); their concatenation lacks the last line feed. *)
Lemma partitions_concat_counterexample :
  ∃ parts bufs,
    partitions (bytes "A;1" ++ [LF] ++ bytes "B;2" ++ [LF]) 2 = Some parts ∧
    slices (bytes "A;1" ++ [LF] ++ bytes "B;2" ++ [LF]) parts = Some bufs ∧
    concat bufs ≠ bytes "A;1" ++ [LF] ++ bytes "B;2" ++ [LF].
Proof.
  exists [(0, 7); (8, 8)], [bytes "A;1" ++ [LF] ++ bytes "B;2"; []].
  split_and!; [by vm_compute | by vm_compute |].
  intros H. vm_compute in H. discriminate H.
Qed.

Lemma partitions_lookup data workers parts (i : nat) s e :
  partitions data workers = Some parts → parts !! i = Some (s, e) →
  Z.of_nat i < workers ∧
  partition data workers (Z.of_nat (length data) `quot` workers) (Z.of_nat i) = Some (s, e).
Proof.
  unfold partitions. case_decide; [done|]. cbv zeta. intros Hp Hi.
  apply mapM_Some in Hp.
  destruct (Forall2_lookup_r _ _ _ _ _ Hp Hi) as (x & Hx & Hf).
  apply lookup_seqZ in Hx as [-> Hlt]. split; [lia|].
  by rewrite Z.add_0_l in Hf.
Qed.

(** Under the same hypothesis the partitions form a chain: the first starts
    at 0, the last ends at the end of the input, and each one ends at a
    line feed behind which the next one starts. *)
Lemma partitions_chain data workers parts :
  0 < workers → chunksHaveLF data workers →
  partitions data workers = Some parts →
  ∀ (i : nat) s e,
    parts !! i = Some (s, e) →
    0 ≤ s ∧ s ≤ e ∧ e ≤ Z.of_nat (length data) ∧
    (i = 0%nat → s = 0) ∧
    (S i = length parts → e = Z.of_nat (length data)) ∧
    (∀ s' e', parts !! S i = Some (s', e') → s' = e + 1 ∧ index data e = Some LF).
Proof.
  intros Hw HLF Hp i s e Hi.
  assert (Hlen : length parts = Z.to_nat workers).
  { pose proof Hp as Hp'. unfold partitions in Hp'.
    rewrite decide_False in Hp' by lia. apply length_mapM in Hp'.
    rewrite <- Hp', length_seqZ. lia. }
  destruct (partitions_lookup _ _ _ _ _ _ Hp Hi) as [Hlt Hpi].
  destruct (partition_chain data workers Hw HLF (Z.of_nat i) ltac:(lia))
    as (s0 & e0 & Hp0 & Hs & Hse & He & Hfirst & Hlast & Hnext).
  rewrite Hpi in Hp0. injection Hp0 as <- <-.
  split_and!; [done | done | done | | | ].
  - intros ->. by apply Hfirst.
  - intros HS. apply Hlast. lia.
  - intros s' e' Hi'.
    destruct (partitions_lookup _ _ _ _ _ _ Hp Hi') as [Hlt' Hpi'].
    destruct (Hnext ltac:(lia)) as (Hlf & e'' & Hp'').
    replace (Z.of_nat (S i)) with (Z.of_nat i + 1) in Hpi' by lia.
    rewrite Hpi' in Hp''. injection Hp'' as -> ->.
    split; [done|]. apply index_Some. split; [lia | done].
Qed.

(** C6, as the partitioner behaves: when every naive chunk after the first
    contains a line feed, the partitioner does not panic and yields one
    partition per worker; the first starts at 0, the last ends at the end
    of the input, each one ends at a line feed behind which the next one
    starts, so that no two overlap; and the partitions, taken in order and
    joined with the one line feed that separates each from the next, are
    the input. *)
Theorem partitions_rejoin_with_LF (data : list byte) (workers : Z) :
  0 < workers → chunksHaveLF data workers →
  ∃ parts bufs,
    partitions data workers = Some parts ∧
    slices data parts = Some bufs ∧
    length parts = Z.to_nat workers ∧
    joinLF bufs = data ∧
    ∀ (i : nat) s e,
      parts !! i = Some (s, e) →
      0 ≤ s ∧ s ≤ e ∧ e ≤ Z.of_nat (length data) ∧
      (i = 0%nat → s = 0) ∧
      (S i = length parts → e = Z.of_nat (length data)) ∧
      (∀ s' e', parts !! S i = Some (s', e') → s' = e + 1 ∧ index data e = Some LF).
Proof.
  intros Hw HLF.
  destruct (partitions_rejoin data workers Hw HLF) as (parts & bufs & Hp & Hs & Hj).
  exists parts, bufs. split_and!; [done | done | | done | by apply (partitions_chain data workers)].
  unfold partitions in Hp. rewrite decide_False in Hp by lia.
  apply length_mapM in Hp. rewrite <- Hp, length_seqZ. lia.
Qed.

Lemma partitions_rejoin_with_LF_witness :
  ∃ parts bufs,
    partitions (bytes "A;1" ++ [LF] ++ bytes "B;2" ++ [LF]) 2 = Some parts ∧
    slices (bytes "A;1" ++ [LF] ++ bytes "B;2" ++ [LF]) parts = Some bufs ∧
    length parts = Z.to_nat 2 ∧
    joinLF bufs = bytes "A;1" ++ [LF] ++ bytes "B;2" ++ [LF].
Proof.
  assert (H : chunksHaveLF (bytes "A;1" ++ [LF] ++ bytes "B;2" ++ [LF]) 2).
  { intros i Hi. assert (i = 1) as -> by lia.
    exists 7. split; [vm_compute; split; [discriminate | reflexivity] | reflexivity]. }
  destruct (partitions_rejoin_with_LF _ 2 ltac:(lia) H)
    as (parts & bufs & H1 & H2 & H3 & H4 & _).
  by exists parts, bufs.
Defined.

(** ** Concurrent calls of [GetOrAdd] *)

(** A call that is not interrupted is the function [GetOrAdd]. *)
Lemma stepCall_uninterrupted b inn :
  match stepCall b AtRead inn with
  | None => None
  | Some (s1, inn1) =>
      match stepCall b s1 inn1 with
      | None => None
      | Some (s2, inn2) => stepCall b s2 inn2
      end
  end
  = match GetOrAdd inn b with
    | None => None
    | Some (id, inn') => Some (Finished id, inn')
    end.
Proof.
  unfold GetOrAdd. cbn [stepCall].
  destruct (scanIds (names inn) _ b) as [[id|]|]; [done | | done].
  cbn [stepCall shards names]. done.
Qed.

(** C5, where the code departs from it: two goroutines intern the same new
    key "A" and both finish the read path before either registers the name.
    The calls return the identifiers 0 and 1, and the name table holds the
    key twice. *)
Theorem GetOrAdd_race_two_ids :
  ∃ inn,
    runSchedule (bytes "A") (bytes "A") [true; false; true; false; true; false]
      AtRead AtRead newIntern
    = Some (Finished 0, Finished 1, inn) ∧
    names inn = [bytes "A"; bytes "A"] ∧
    Name inn 0 = Some (bytes "A") ∧ Name inn 1 = Some (bytes "A").
Proof. eexists. vm_compute. done. Qed.

(** Run one after the other, the two calls agree. *)
Lemma GetOrAdd_no_race_one_id :
  ∃ inn,
    runSchedule (bytes "A") (bytes "A") [true; true; true; false; false; false]
      AtRead AtRead newIntern
    = Some (Finished 0, Finished 0, inn) ∧
    names inn = [bytes "A"].
Proof. eexists. vm_compute. done. Qed.

(** ** The last line without line feed in the shard-file variant *)

Lemma GoV1_shardLoop_no_LF data rest : ∀ i lineStart shardBuf,
  LF ∉ rest → GoV1.shardLoop data rest i lineStart shardBuf = Some shardBuf.
Proof.
  induction rest as [|c rest IH]; intros i ls sb Hlf; simpl; [done|].
  apply not_elem_of_cons in Hlf as [Hc Hlf].
  rewrite decide_True by congruence. by apply IH.
Qed.

(** C8, where the shard-file variant departs from it: a file that is one
    unterminated line, whatever the line, leaves every shard buffer empty,
    so its line reaches no aggregation. *)
Theorem GoV1_drops_unterminated_line (last : list byte) :
  last ≠ [] → LF ∉ last →
  GoV1.shardPhase (Some last) = Some (replicate (Z.to_nat GoV1.shardCount) []).
Proof.
  intros Hne Hlf. unfold GoV1.shardPhase, GoV1.mmapFile.
  rewrite decide_False by (destruct last; simpl; [done | lia]).
  by apply GoV1_shardLoop_no_LF.
Qed.

Lemma GoV1_drops_unterminated_line_witness :
  GoV1.shardPhase (Some (bytes "A;1.0"))
  = Some (replicate (Z.to_nat GoV1.shardCount) []).
Proof.
  apply GoV1_drops_unterminated_line; [discriminate|].
  apply not_elem_of_bytes. reflexivity.
Defined.

(** The terminated line is kept; an unterminated last line after it is
    not. *)
Lemma GoV1_shardPhase_examples :
  (fun sb => concat sb) <$> GoV1.shardPhase (Some (bytes "A;1.0" ++ [LF]))
    = Some (bytes "A;1.0" ++ [LF]) ∧
  (fun sb => concat sb) <$> GoV1.shardPhase (Some (bytes "A;1.0")) = Some [] ∧
  (fun sb => concat sb) <$> GoV1.shardPhase (Some (bytes "A;1.0" ++ [LF] ++ bytes "B;2.0"))
    = Some (bytes "A;1.0" ++ [LF]).
Proof. vm_compute. done. Qed.

(** The interner variant on the same inputs keeps the last line. *)
Lemma parseChunkIDs_last_line_examples :
  entries (parseChunkIDs (bytes "A;1.0" ++ [LF] ++ bytes "B;2.0") ∅ newIntern)
  = entries (parseChunkIDs (bytes "A;1.0" ++ [LF] ++ bytes "B;2.0" ++ [LF]) ∅ newIntern) ∧
  entries (parseChunkIDs (bytes "A;1.0" ++ [LF] ++ bytes "B;2.0") ∅ newIntern)
  = Some [(bytes "B", {| min := 20; max := 20; sum := 20; count := 1 |});
          (bytes "A", {| min := 10; max := 10; sum := 10; count := 1 |})].
Proof. vm_compute. done. Qed.

(** ** The ranges of the overlap-read variant *)

(** Four lines, two workers: the first worker scans the whole file, the
    second the last line again. *)
Lemma Part002_windows_overlap :
  Part002.windows (bytes "A;1" ++ [LF] ++ bytes "B;2" ++ [LF] ++ bytes "C;3" ++ [LF]
                   ++ bytes "D;4" ++ [LF]) 2
  = Some [Some (0, 16); Some (12, 16)].
Proof. vm_compute. done. Qed.

(** ** Instances *)

Lemma merge_any_order_witness :
  mergeLocals [ {[ 0 := {| min := 10; max := 30; sum := 40; count := 2 |} ]};
                {[ 0 := {| min := -5; max := 12; sum := 7; count := 2 |};
                   1 := {| min := 20; max := 20; sum := 20; count := 1 |} ]} ]
  = mergeLocals [ {[ 0 := {| min := -5; max := 12; sum := 7; count := 2 |};
                     1 := {| min := 20; max := 20; sum := 20; count := 1 |} ]};
                  {[ 0 := {| min := 10; max := 30; sum := 40; count := 2 |} ]} ].
Proof.
  exact (proj1 (merge_any_order _ _ (perm_swap _ _ []))).
Defined.


(** ** More on the interner *)

Lemma fnv1a64_fold_range b : ∀ h, 0 ≤ h < 2 ^ 64 →
  0 ≤ foldl (fun h c => uint64 (Z.lxor h (byteZ c) * 1099511628211)) h b < 2 ^ 64.
Proof.
  induction b as [|c b IH]; intros h Hh; simpl; [done|].
  apply IH. unfold uint64. apply Z.mod_pos_bound. lia.
Qed.

(** X1: [equalSB] decides equality of the string and the byte slice. *)
Theorem equalSB_decides_equality (s b : list byte) :
  (equalSB s b = true ↔ s = b) ∧ (equalSB s b = false ↔ s ≠ b).
Proof.
  split; [apply equalSB_true|].
  rewrite <- not_true_iff_false. by rewrite equalSB_true.
Qed.

(** X2: the hash is a uint64 and the shard it selects is one of the 256
    shards of the interner, so [in.shards[h&255]] is always in range. *)
Theorem fnv1a64_shard_in_range (b : list byte) :
  0 ≤ fnv1a64 b < 2 ^ 64 ∧
  (shardOf (fnv1a64 b) < length (shards newIntern))%nat ∧
  is_Some (shards newIntern !! shardOf (fnv1a64 b)).
Proof.
  pose proof (wf_length _ wf_newIntern) as Hlen.
  pose proof (shardOf_lt (fnv1a64 b)) as Hsh.
  split; [|split].
  - unfold fnv1a64. cbv zeta. apply fnv1a64_fold_range.
    unfold uint64. apply Z.mod_pos_bound. lia.
  - lia.
  - apply lookup_lt_is_Some. lia.
Qed.

Lemma internSeq_app inn ks1 ks2 :
  internSeq inn (ks1 ++ ks2) =
  match internSeq inn ks1 with
  | None => None
  | Some (ids1, inn1) =>
      match internSeq inn1 ks2 with
      | None => None
      | Some (ids2, inn2) => Some (ids1 ++ ids2, inn2)
      end
  end.
Proof.
  revert inn. induction ks1 as [|k ks1 IH]; intros inn; simpl.
  - by destruct (internSeq inn ks2) as [[??]|].
  - destruct (GetOrAdd inn k) as [[id inn1]|]; [|done].
    rewrite IH. destruct (internSeq inn1 ks1) as [[ids1 inn2]|]; [|done].
    by destruct (internSeq inn2 ks2) as [[??]|].
Qed.

Lemma distinct_mono (l1 l2 : list (list byte)) :
  (∀ x, x ∈ l1 → x ∈ l2) → (distinct l1 ≤ distinct l2)%nat.
Proof.
  intros H. unfold distinct at 1. apply NoDup_length_distinct; [apply NoDup_remove_dups|].
  intros x. rewrite elem_of_remove_dups. apply H.
Qed.

(** X3: a key that was interned is found again: the second call returns the
    same identifier and leaves the interner as it is (no name is appended,
    no shard is written). *)
Theorem GetOrAdd_again (ks : list (list byte)) (b : list byte) :
  Z.of_nat (distinct (ks ++ [b])) < 2 ^ 31 →
  ∃ ids inn id inn',
    internSeq newIntern ks = Some (ids, inn) ∧
    GetOrAdd inn b = Some (id, inn') ∧
    GetOrAdd inn' b = Some (id, inn').
Proof.
  intros Hb.
  destruct (internSeq_spec ks newIntern wf_newIntern)
    as (ids & inn & Hrun & Hwf & _ & Hel & _).
  { eapply Z.le_lt_trans; [|exact Hb]. apply inj_le, distinct_mono.
    intros x Hx. apply elem_of_app. by left. }
  assert (Hlen : Z.of_nat (length (names inn)) < 2 ^ 31).
  { eapply Z.le_lt_trans; [|exact Hb]. apply inj_le.
    apply NoDup_length_distinct; [by apply wf_nodup|].
    intros x Hx. apply Hel in Hx as [Hx|Hx]; [by apply elem_of_nil in Hx|].
    apply elem_of_app. by left. }
  destruct (GetOrAdd_spec inn b Hwf Hlen) as (id & inn' & Hg & Hwf' & Hid & _).
  exists ids, inn, id, inn'. split_and!; [done | done |].
  apply index_Some in Hid as [Hid0 Hid].
  rewrite (GetOrAdd_hit inn' b (Z.to_nat id) Hwf' Hid). by rewrite Z2Nat.id.
Qed.

Lemma GetOrAdd_again_witness :
  ∃ ids inn id inn',
    internSeq newIntern [bytes "A"; bytes "B"] = Some (ids, inn) ∧
    GetOrAdd inn (bytes "A") = Some (id, inn') ∧
    GetOrAdd inn' (bytes "A") = Some (id, inn').
Proof. apply GetOrAdd_again. vm_compute. reflexivity. Defined.

(** X4: identifiers are stable: whatever is interned later, one call after
    the other, an identifier that resolved to a name still resolves to the
    same name. *)
Theorem Name_stable (ks ks' : list (list byte)) :
  Z.of_nat (distinct (ks ++ ks')) < 2 ^ 31 →
  ∃ ids inn ids' inn',
    internSeq newIntern ks = Some (ids, inn) ∧
    internSeq inn ks' = Some (ids', inn') ∧
    ∀ id k, Name inn id = Some k → Name inn' id = Some k.
Proof.
  intros Hb.
  destruct (internSeq_spec ks newIntern wf_newIntern)
    as (ids & inn & Hrun & Hwf & _ & Hel & _).
  { eapply Z.le_lt_trans; [|exact Hb]. apply inj_le, distinct_mono.
    intros x Hx. apply elem_of_app. by left. }
  destruct (internSeq_spec ks' inn Hwf) as (ids' & inn' & Hrun' & _ & Hpre & _ & _).
  { eapply Z.le_lt_trans; [|exact Hb]. apply inj_le, distinct_mono.
    intros x [Hx|Hx]%elem_of_app; apply elem_of_app; [left|by right].
    apply Hel in Hx as [Hx|Hx]; [by apply elem_of_nil in Hx | done]. }
  exists ids, inn, ids', inn'. split_and!; [done | done |].
  intros id k Hk. destruct Hpre as [l Hl]. unfold Name in *. rewrite Hl.
  by apply index_app_l.
Qed.

Lemma Name_stable_witness :
  ∃ ids inn ids' inn',
    internSeq newIntern [bytes "A"; bytes "B"] = Some (ids, inn) ∧
    internSeq inn [bytes "C"; bytes "A"] = Some (ids', inn') ∧
    ∀ id k, Name inn id = Some k → Name inn' id = Some k.
Proof. apply Name_stable. vm_compute. reflexivity. Defined.

Lemma internSeq_firstSeen ks : ∀ inn,
  wfIntern inn →
  Z.of_nat (distinct (names inn ++ ks)) < 2 ^ 31 →
  ∃ ids inn',
    internSeq inn ks = Some (ids, inn') ∧
    names inn' = foldl (fun acc k => if decide (k ∈ acc) then acc else acc ++ [k])
                       (names inn) ks.
Proof.
  induction ks as [|k ks IH]; intros inn Hwf Hb; simpl.
  - by exists [], inn.
  - assert (Hlen : Z.of_nat (length (names inn)) < 2 ^ 31).
    { eapply Z.le_lt_trans; [|exact Hb]. apply inj_le.
      apply NoDup_length_distinct; [by apply wf_nodup|].
      intros; apply elem_of_app; by left. }
    destruct (GetOrAdd_spec inn k Hwf Hlen) as (id & inn1 & -> & Hwf1 & _ & Hcase).
    assert (Hn1 : names inn1 = if decide (k ∈ names inn) then names inn else names inn ++ [k]).
    { destruct Hcase as [[Hin ->] | [Hnin Hn]]; [by rewrite decide_True|].
      by rewrite decide_False. }
    destruct (IH inn1 Hwf1) as (ids & inn' & -> & Hn').
    { eapply Z.le_lt_trans; [|exact Hb]. apply inj_le, distinct_mono.
      intros x. rewrite Hn1, !elem_of_app, elem_of_cons.
      case_decide; [naive_solver|]. rewrite elem_of_app, list_elem_of_singleton.
      naive_solver. }
    exists (id :: ids), inn'. split; [done|]. by rewrite Hn', Hn1.
Qed.

(** X5: after any sequence of calls made one after the other the name table
    is the list of the keys in the order of their first occurrence, and the
    identifier returned for a key is its position in that list. *)
Theorem names_in_first_seen_order (ks : list (list byte)) :
  Z.of_nat (distinct ks) < 2 ^ 31 →
  ∃ ids inn,
    internSeq newIntern ks = Some (ids, inn) ∧
    names inn = firstSeen ks ∧
    ∀ (i : nat) k id, ks !! i = Some k → ids !! i = Some id →
      index (firstSeen ks) id = Some k.
Proof.
  intros Hb.
  destruct (internSeq_firstSeen ks newIntern wf_newIntern Hb) as (ids & inn & Hrun & Hn).
  destruct (internSeq_spec ks newIntern wf_newIntern Hb)
    as (ids' & inn'' & Hrun' & _ & _ & _ & Hall).
  rewrite Hrun in Hrun'. injection Hrun' as <- <-.
  exists ids, inn. split_and!; [done | done |].
  intros i k id Hk Hid.
  assert (names inn = firstSeen ks) as <- by exact Hn.
  exact (Forall2_lookup_lr _ _ _ _ _ _ Hall Hk Hid).
Qed.

Lemma names_in_first_seen_order_witness :
  ∃ ids inn,
    internSeq newIntern [bytes "B"; bytes "A"; bytes "B"] = Some (ids, inn) ∧
    names inn = firstSeen [bytes "B"; bytes "A"; bytes "B"] ∧
    ∀ (i : nat) k id,
      [bytes "B"; bytes "A"; bytes "B"] !! i = Some k → ids !! i = Some id →
      index (firstSeen [bytes "B"; bytes "A"; bytes "B"]) id = Some k.
Proof. apply names_in_first_seen_order. vm_compute. reflexivity. Defined.

(** X6: for calls made one after the other, two calls return the same
    identifier exactly when they were given the same bytes; keys with the
    same hash are told apart by the byte comparison. *)
Theorem sequential_ids_equal_iff_bytes_equal (ks : list (list byte)) :
  Z.of_nat (distinct ks) < 2 ^ 31 →
  ∃ ids inn,
    internSeq newIntern ks = Some (ids, inn) ∧ length ids = length ks ∧
    ∀ (i j : nat) b1 b2 id1 id2,
      ks !! i = Some b1 → ks !! j = Some b2 →
      ids !! i = Some id1 → ids !! j = Some id2 →
      (id1 = id2 ↔ b1 = b2).
Proof. apply intern_ids_agree_with_bytes. Qed.

Lemma sequential_ids_equal_iff_bytes_equal_witness :
  ∃ ids inn,
    internSeq newIntern [bytes "B"; bytes "A"; bytes "B"] = Some (ids, inn) ∧
    length ids = length [bytes "B"; bytes "A"; bytes "B"] ∧
    ∀ (i j : nat) b1 b2 id1 id2,
      [bytes "B"; bytes "A"; bytes "B"] !! i = Some b1 →
      [bytes "B"; bytes "A"; bytes "B"] !! j = Some b2 →
      ids !! i = Some id1 → ids !! j = Some id2 →
      (id1 = id2 ↔ b1 = b2).
Proof. apply sequential_ids_equal_iff_bytes_equal. vm_compute. reflexivity. Defined.

(** ** More on the scanner and the value parser *)

Lemma int32_range z : - 2 ^ 31 ≤ int32 z < 2 ^ 31.
Proof. unfold int32. pose proof (Z.mod_pos_bound (z + 2 ^ 31) (2 ^ 32)). lia. Qed.

Lemma parseTemp_range r i : - 2 ^ 31 ≤ (parseTemp r i).1 < 2 ^ 31.
Proof.
  unfold parseTemp.
  destruct (parseSign r i) as [sg [r1 i1]].
  destruct (parseInt r1 i1 0) as [ip [r2 i2]].
  destruct (skipDot r2 i2) as [r3 i3].
  destruct (parseDec r3 i3) as [dd [r4 i4]].
  destruct (skipLine r4 i4) as [r5 i5]. simpl. apply int32_range.
Qed.

Lemma totalCount_empty : totalCount ∅ = 0.
Proof. unfold totalCount. by rewrite map_fold_empty. Qed.

Lemma totalCount_insert_new (m : gmap Z Stat) i x :
  m !! i = None → totalCount (<[i:=x]> m) = totalCount m + count x.
Proof.
  intros Hi. unfold totalCount.
  rewrite map_fold_insert_L; [done | | done].
  intros. lia.
Qed.

Lemma totalCount_insert_old (m : gmap Z Stat) i x y :
  m !! i = Some y → totalCount (<[i:=x]> m) = totalCount m - count y + count x.
Proof.
  intros Hi.
  rewrite <- (insert_delete_eq m i x).
  rewrite totalCount_insert_new by apply lookup_delete_eq.
  rewrite <- (insert_delete_id m i y Hi) at 2.
  rewrite totalCount_insert_new by apply lookup_delete_eq. lia.
Qed.

Lemma record_lookup_eq m c t :
  record m c t !! c =
  Some (match m !! c with
        | Some st =>
            {| min := if decide (t < min st) then t else min st;
               max := if decide (t > max st) then t else max st;
               sum := int64 (sum st + int64 t);
               count := int64 (count st + 1) |}
        | None => {| min := t; max := t; sum := int64 t; count := 1 |}
        end).
Proof. unfold record. destruct (m !! c); by rewrite lookup_insert_eq. Qed.

Lemma record_inv n m c t :
  mapInv n m → 0 ≤ n → n + 1 < 2 ^ 31 → - 2 ^ 31 ≤ t < 2 ^ 31 →
  mapInv (n + 1) (record m c t) ∧ totalCount (record m c t) = totalCount m + 1.
Proof.
  intros [Hm Htot] Hn Hb Ht.
  assert (Ht64 : int64 t = t) by (apply int64_id; lia).
  assert (Hcnt : totalCount (record m c t) = totalCount m + 1).
  { unfold record. destruct (m !! c) as [st|] eqn:Hc.
    - rewrite (totalCount_insert_old m c _ st Hc). cbn [count].
      destruct (Hm c st Hc) as (_ & _ & _ & Hc1 & Hc2 & _).
      rewrite int64_id by lia. lia.
    - rewrite totalCount_insert_new by done. cbn [count]. lia. }
  split; [|done]. split; [|lia].
  intros id st Hid. destruct (decide (id = c)) as [->|Hne].
  - rewrite record_lookup_eq in Hid. injection Hid as <-.
    destruct (m !! c) as [st|] eqn:Hc.
    + destruct (Hm c st Hc) as (H1 & H2 & H3 & H4 & H5 & H6 & H7).
      assert (Hsum : - 2 ^ 62 < sum st + t < 2 ^ 62) by nia.
      unfold statInv. cbn [min max sum count].
      rewrite Ht64. rewrite !int64_id by lia.
      repeat case_decide; split_and!; try lia; nia.
    + unfold statInv. cbn [min max sum count]. rewrite Ht64. split_and!; lia.
  - rewrite record_other in Hid by done.
    destruct (Hm id st Hid) as (H1 & H2 & H3 & H4 & H5 & H6 & H7).
    unfold statInv. split_and!; lia.
Qed.

Lemma mapInv_mono n n' m : mapInv n m → n ≤ n' → mapInv n' m.
Proof.
  intros [Hm Ht] Hle. split; [|lia]. intros id st Hid.
  destruct (Hm id st Hid) as (H1 & H2 & H3 & H4 & H5 & H6 & H7).
  unfold statInv. split_and!; lia.
Qed.

Lemma keysValid_step m inn inn' c t k :
  keysValid m inn → names inn `prefix_of` names inn' →
  index (names inn') c = Some k → keysValid (record m c t) inn'.
Proof.
  intros Hk [l Hl] Hc id st Hid. unfold Name.
  destruct (decide (id = c)) as [->|Hne]; [by rewrite Hc|].
  rewrite record_other in Hid by done.
  destruct (Hk id st Hid) as [x Hx]. unfold Name in Hx.
  exists x. rewrite Hl. by apply index_app_l.
Qed.

Lemma splitLF_line v : ∀ rest cur,
  LF ∉ v → splitLF (v ++ LF :: rest) cur = (cur ++ v) :: splitLF rest [].
Proof.
  induction v as [|c v IH]; intros rest cur Hv; simpl.
  - by rewrite app_nil_r.
  - apply not_elem_of_cons in Hv as [Hc Hv]. rewrite decide_False by done.
    rewrite IH by done. by rewrite <- app_assoc.
Qed.

Lemma splitLF_last v : ∀ cur, LF ∉ v → splitLF v cur = [cur ++ v].
Proof.
  induction v as [|c v IH]; intros cur Hv; simpl.
  - by rewrite app_nil_r.
  - apply not_elem_of_cons in Hv as [Hc Hv]. rewrite decide_False by done.
    rewrite IH by done. by rewrite <- app_assoc.
Qed.

Lemma recordedLines_line v rest :
  LF ∉ v →
  recordedLines (v ++ LF :: rest) =
  (if decide (";"%byte ∈ v) then 1 else 0) + recordedLines rest.
Proof.
  intros Hv. unfold recordedLines, lines. rewrite splitLF_line by done. simpl.
  rewrite filter_cons. case_decide; simpl; lia.
Qed.

Lemma recordedLines_last v :
  LF ∉ v → recordedLines v = if decide (";"%byte ∈ v) then 1 else 0.
Proof.
  intros Hv. unfold recordedLines, lines. rewrite splitLF_last by done. simpl.
  rewrite filter_cons, filter_nil. by case_decide.
Qed.

Lemma recordedLines_nonneg buf : 0 ≤ recordedLines buf.
Proof. unfold recordedLines. lia. Qed.

Lemma scan_one_key k m inn n :
  wfIntern inn → keysValid m inn → mapInv n m → 0 ≤ n →
  Z.of_nat (length (names inn)) + 1 < 2 ^ 31 → n + 1 < 2 ^ 31 →
  ∀ t, - 2 ^ 31 ≤ t < 2 ^ 31 →
  ∃ id inn1,
    GetOrAdd inn k = Some (id, inn1) ∧ wfIntern inn1 ∧
    names inn `prefix_of` names inn1 ∧
    (length (names inn1) ≤ length (names inn) + 1)%nat ∧
    keysValid (record m id t) inn1 ∧
    mapInv (n + 1) (record m id t) ∧
    totalCount (record m id t) = totalCount m + 1.
Proof.
  intros Hwf Hk Hm Hn Hb1 Hb2 t Ht.
  destruct (GetOrAdd_spec inn k Hwf ltac:(lia)) as (id & inn1 & Hg & Hwf1 & Hid & Hcase).
  assert (Hp : names inn `prefix_of` names inn1 ∧
               (length (names inn1) ≤ length (names inn) + 1)%nat).
  { destruct Hcase as [[_ ->] | [_ ->]]; [split; [done | lia]|].
    split; [by apply prefix_app_r | rewrite length_app; simpl; lia]. }
  destruct Hp as [Hp Hl].
  destruct (record_inv n m id t Hm Hn Hb2 Ht) as [Hinv Hcnt].
  exists id, inn1. split_and!; try done. by eapply keysValid_step.
Qed.

Lemma scan_last last : LF ∉ last → ∀ n m inn,
  scanPre last n m inn → scanPost last n m inn.
Proof.
  intros Hlf n m inn (Hwf & Hk & Hm & Hn & Hb1 & Hb2).
  unfold scanPost. rewrite (recordedLines_last _ Hlf).
  destruct (decide (";"%byte ∈ last)) as [Hin | Hnin].
  - destruct (split_first _ _ Hin) as (k & v & -> & Hk1).
    apply not_elem_of_app in Hlf as [Hk2 Hv]. apply not_elem_of_cons in Hv as [_ Hv].
    rewrite length_app in Hb1, Hb2. simpl in Hb1, Hb2.
    destruct (scan_one_key k m inn n Hwf Hk Hm Hn ltac:(lia) ltac:(lia)
                (parseTemp v 0).1 (parseTemp_range v 0))
      as (id & inn1 & Hg & Hwf1 & Hp & Hl & Hk' & Hinv & Hcnt).
    exists (record m id (parseTemp v 0).1), inn1.
    rewrite parse_last_line, Hg by done.
    split_and!; try done. rewrite length_app. simpl. lia.
  - exists m, inn. rewrite parse_skip_last by done.
    rewrite !Z.add_0_r.
    split_and!; try done. lia.
Qed.

Lemma scan_line v rest : LF ∉ v →
  (∀ n m inn, scanPre rest n m inn → scanPost rest n m inn) →
  ∀ n m inn, scanPre (v ++ LF :: rest) n m inn → scanPost (v ++ LF :: rest) n m inn.
Proof.
  intros Hlf IH n m inn (Hwf & Hk & Hm & Hn & Hb1 & Hb2).
  rewrite length_app in Hb1, Hb2. simpl in Hb1, Hb2.
  unfold scanPost. rewrite (recordedLines_line _ _ Hlf).
  destruct (decide (";"%byte ∈ v)) as [Hin | Hnin].
  - destruct (split_first _ _ Hin) as (k & val & -> & Hk1).
    apply not_elem_of_app in Hlf as [Hk2 Hv]. apply not_elem_of_cons in Hv as [_ Hv].
    rewrite length_app in Hb1, Hb2. simpl in Hb1, Hb2.
    destruct (scan_one_key k m inn n Hwf Hk Hm Hn ltac:(lia) ltac:(lia)
                (parseTemp val 0).1 (parseTemp_range val 0))
      as (id & inn1 & Hg & Hwf1 & Hp & Hl & Hk' & Hinv & Hcnt).
    destruct (IH (n + 1) (record m id (parseTemp val 0).1) inn1)
      as (m' & inn' & Hrun & Hwf' & Hp' & Hl' & Hk'' & Hinv' & Hcnt').
    { split_and!; try done; lia. }
    exists m', inn'. rewrite <- app_assoc. simpl.
    rewrite parse_line, Hg, Hrun by done.
    split_and!; [done | done | by etrans | | done | | lia].
    + rewrite !length_app. simpl. rewrite length_app. simpl. lia.
    + by replace (n + (1 + recordedLines rest)) with (n + 1 + recordedLines rest) by lia.
  - destruct (IH n m inn) as (m' & inn' & Hrun & Hwf' & Hp' & Hl' & Hk'' & Hinv' & Hcnt').
    { split_and!; try done; lia. }
    exists m', inn'. rewrite parse_skip, Hrun by done.
    rewrite !Z.add_0_l.
    split_and!; try done. rewrite length_app. simpl. lia.
Qed.

Lemma scan_post buf n m inn : scanPre buf n m inn → scanPost buf n m inn.
Proof.
  destruct (complete_decompose buf) as (pre & last & -> & Hpre & Hlast).
  revert n m inn. induction Hpre as [|v l Hv Hl IH]; intros n m inn.
  - simpl. by apply scan_last.
  - rewrite <- app_assoc. simpl. by apply scan_line.
Qed.

Lemma mapInv_empty : mapInv 0 ∅.
Proof.
  split; [|by rewrite totalCount_empty]. intros id st H. by rewrite lookup_empty in H.
Qed.

Lemma keysValid_empty inn : keysValid ∅ inn.
Proof. intros id st H. by rewrite lookup_empty in H. Qed.

Lemma mapM_names (nms : list (list byte)) (es : list (Z * Stat)) :
  (∀ e, e ∈ es → is_Some (index nms e.1)) → NoDup nms → NoDup es.*1 →
  ∃ printed,
    mapM (fun e : Z * Stat => match index nms e.1 with
                              | None => None
                              | Some nm => Some (nm, e.2)
                              end) es = Some printed ∧
    length printed = length es ∧ printed.*2 = es.*2 ∧
    (∀ nm, nm ∈ printed.*1 → ∃ id, id ∈ es.*1 ∧ index nms id = Some nm) ∧
    NoDup printed.*1.
Proof.
  intros Hall Hnms. induction es as [|[id st] es IH]; intros Hnd.
  - exists []. split_and!; try done; [|constructor].
    intros nm H. by apply elem_of_nil in H.
  - apply NoDup_cons in Hnd as [Hid Hnd].
    destruct IH as (printed & Hm & Hl & H2 & Hsrc & Hnd'); [|done|].
    { intros e He. apply Hall. by apply list_elem_of_further. }
    destruct (Hall (id, st) (list_elem_of_here _ _)) as [nm Hnm]. simpl in Hnm.
    exists ((nm, st) :: printed). cbn [mapM]. cbn [fst snd]. rewrite Hnm, Hm. simpl.
    split_and!; [done | by rewrite Hl | by f_equal | |].
    + intros nm' [->|H]%elem_of_cons.
      * exists id. split; [apply list_elem_of_here | done].
      * destruct (Hsrc nm' H) as (id' & Hid' & Hn'). exists id'.
        split; [by apply list_elem_of_further | done].
    + apply NoDup_cons. split; [|done]. intros Hin.
      destruct (Hsrc nm Hin) as (id' & Hid' & Hn').
      apply index_Some in Hnm as [? Hnm]. apply index_Some in Hn' as [? Hn'].
      pose proof (NoDup_lookup _ _ _ _ Hnms Hnm Hn'). 
      assert (id = id') by lia. by subst.
Qed.

Lemma output_total m inn :
  wfIntern inn → keysValid m inn →
  ∃ printed, output m inn = Some printed ∧
    length printed = size m ∧ NoDup printed.*1 ∧
    printed.*2 = (map_to_list m).*2.
Proof.
  intros Hwf Hk. unfold output.
  destruct (mapM_names (names inn) (map_to_list m)) as (printed & Hm & Hl & H2 & _ & Hnd).
  - intros [id st] He. apply elem_of_map_to_list in He. by eapply Hk.
  - apply Hwf.
  - apply NoDup_fst_map_to_list.
  - exists printed. unfold Name. rewrite Hm. split_and!; try done.
    by rewrite Hl, length_map_to_list.
Qed.

Lemma parseTemp_fst_index r i j : (parseTemp r i).1 = (parseTemp r j).1.
Proof.
  destruct (parseTemp_index r i 0) as [E1 _], (parseTemp_index r j 0) as [E2 _].
  congruence.
Qed.

Lemma parseTemp_tail d g i :
  wellFormed d →
  (dfrac d = None → ∀ c g', g = c :: g' → isDigit c = false ∧ c ≠ "."%byte) →
  (parseTemp (render d ++ g) i).1 = int32 (scaled d).
Proof.
  intros (Hne & Hds & Hfr) Htail. unfold render, parseTemp, scaled.
  destruct d as [s ds fr]. simpl in *.
  destruct ds as [|c0 ds0] eqn:Eds; [done|]. rewrite <- Eds in *.
  assert (Hc0 : isDigit c0 = true) by (rewrite Eds in Hds; by apply Forall_cons in Hds as [? _]).
  destruct (isDigit_not_special c0 Hc0) as (Hm & Hp & Hdot & Hlf & _).
  assert (Hsign : ∀ j, parseSign (signBytes s ++ ds ++ fracBytes fr ++ g) j =
            (signZ s, (ds ++ fracBytes fr ++ g, j + Z.of_nat (length (signBytes s))))).
  { intros j. destruct s; simpl.
    - rewrite Eds. simpl. rewrite !decide_False by done. f_equal. f_equal. lia.
    - done.
    - done. }
  rewrite <- !app_assoc. rewrite Hsign.
  assert (Hnd : match fracBytes fr ++ g with [] => True | c :: _ => isDigit c = false end).
  { destruct fr; simpl; [done|]. destruct g as [|c g']; [done|].
    by destruct (Htail eq_refl c g' eq_refl). }
  destruct (parseInt_digits ds (fracBytes fr ++ g)
              (i + Z.of_nat (length (signBytes s))) 0 Hds Hnd) as [E1 E2].
  destruct (parseInt (ds ++ fracBytes fr ++ g) _ 0) as [ip [r2 i2]].
  simpl in E1, E2. subst ip r2.
  change 0 with (int32 0) at 1. rewrite foldl_int32_digits by done.
  fold (digitsVal ds).
  destruct fr as [c|]; simpl.
  - rewrite Hfr. simpl. rewrite digitVal_digit by done.
    destruct (skipLine g _) as [r5 i5]. simpl.
    by rewrite int32_acc, int32_mul_r.
  - destruct g as [|c g']; simpl; [by rewrite int32_acc, int32_mul_r|].
    destruct (Htail eq_refl c g' eq_refl) as [Hc Hcd].
    rewrite decide_False by done. simpl. rewrite Hc.
    destruct (skipLine (c :: g') _) as [r5 i5]. simpl.
    by rewrite int32_acc, int32_mul_r.
Qed.

(** X7: the end of the buffer ends a line as a line feed does: a scan of a
    buffer gives the same map and the same interner as the scan of the
    buffer followed by one line feed, from any map and any interner, panics
    included. *)
Theorem scan_end_of_buffer_ends_line (buf : list byte) (m : gmap Z Stat) (inn : Intern) :
  parseChunkIDs (buf ++ [LF]) m inn = parseChunkIDs buf m inn.
Proof. apply parse_unterminated. Qed.

(** X8: a scan is compositional at line starts: when [pre] is empty or ends
    with a line feed, scanning [pre ++ rest] is scanning [pre] and then
    [rest] from the map and the interner the first scan leaves. *)
Theorem scan_splits_at_line_starts (pre rest : list byte) (m : gmap Z Stat) (inn : Intern) :
  wholeLines pre →
  parseChunkIDs (pre ++ rest) m inn =
  andThen (parseChunkIDs pre m inn) (parseChunkIDs rest).
Proof. intros H. apply parse_app. by apply wholeLines_complete. Qed.

Lemma scan_splits_at_line_starts_witness :
  parseChunkIDs ((bytes "A;1" ++ [LF]) ++ bytes "B;2") ∅ newIntern =
  andThen (parseChunkIDs (bytes "A;1" ++ [LF]) ∅ newIntern) (parseChunkIDs (bytes "B;2")).
Proof.
  apply scan_splits_at_line_starts. right. by exists (bytes "A;1").
Defined.

(** X9: scanning into a map that already holds statistics is merging: the
    result of a scan that starts from [m] is the merge (the rule of the
    merge loop of [main]) of [m] with the result of the same scan started
    from the empty map, and the interner is the same. *)
Theorem scan_into_map_is_merge (buf : list byte) (m : gmap Z Stat) (inn : Intern) :
  parseChunkIDs buf m inn =
  match parseChunkIDs buf ∅ inn with
  | None => None
  | Some (m', inn') => Some (mergeMap m m', inn')
  end.
Proof. apply parseChunkIDs_merge. Qed.

(** X10: a scan from the empty map does not panic as long as the names fit
    an [int32], and every entry of its map is sound: its key resolves to a
    name, minimum and maximum are [int32] values with min <= max, the count
    is at least 1 and at most the number of lines with a semicolon, and the
    sum lies between count times the minimum and count times the maximum
    (so the mean lies between minimum and maximum and nothing wrapped). *)
Theorem scan_statistics_sound (buf : list byte) (inn : Intern) :
  wfIntern inn →
  Z.of_nat (length (names inn)) + Z.of_nat (length buf) < 2 ^ 31 →
  ∃ m' inn',
    parseChunkIDs buf ∅ inn = Some (m', inn') ∧
    ∀ id st, m' !! id = Some st →
      is_Some (Name inn' id) ∧
      - 2 ^ 31 ≤ min st ∧ min st ≤ max st ∧ max st < 2 ^ 31 ∧
      1 ≤ count st ∧ count st ≤ recordedLines buf ∧
      min st * count st ≤ sum st ∧ sum st ≤ max st * count st.
Proof.
  intros Hwf Hb.
  destruct (scan_post buf 0 ∅ inn) as (m' & inn' & Hrun & _ & _ & _ & Hk & [Hinv _] & _).
  { split_and!; [done | apply keysValid_empty | apply mapInv_empty | done | done | lia]. }
  exists m', inn'. split; [done|]. intros id st Hid.
  split; [by eapply Hk|].
  destruct (Hinv id st Hid) as (? & ? & ? & ? & ? & ? & ?).
  split_and!; try done; lia.
Qed.

Lemma scan_statistics_sound_witness :
  ∃ m' inn',
    parseChunkIDs (bytes "A;1.5" ++ [LF] ++ bytes "A;-2.0") ∅ newIntern = Some (m', inn') ∧
    ∀ id st, m' !! id = Some st →
      is_Some (Name inn' id) ∧
      - 2 ^ 31 ≤ min st ∧ min st ≤ max st ∧ max st < 2 ^ 31 ∧
      1 ≤ count st ∧
      count st ≤ recordedLines (bytes "A;1.5" ++ [LF] ++ bytes "A;-2.0") ∧
      min st * count st ≤ sum st ∧ sum st ≤ max st * count st.
Proof.
  apply scan_statistics_sound; [apply wf_newIntern | vm_compute; reflexivity].
Defined.



(** X12: the output loop after a scan never panics on a missing name and
    prints every station once: it resolves every key of the map, prints as
    many records as the map has entries, and no name twice. *)
Theorem scan_output_each_station_once (buf : list byte) :
  Z.of_nat (length buf) < 2 ^ 31 →
  ∃ m' inn' printed,
    parseChunkIDs buf ∅ newIntern = Some (m', inn') ∧
    output m' inn' = Some printed ∧
    length printed = size m' ∧ NoDup printed.*1.
Proof.
  intros Hb.
  destruct (scan_post buf 0 ∅ newIntern) as (m' & inn' & Hrun & Hwf & _ & _ & Hk & _ & _).
  { split_and!; [apply wf_newIntern | apply keysValid_empty | apply mapInv_empty
                 | done | | lia].
    unfold newIntern. cbn [names]. simpl. lia. }
  destruct (output_total m' inn' Hwf Hk) as (printed & Ho & Hl & Hnd & _).
  by exists m', inn', printed.
Qed.

Lemma scan_output_each_station_once_witness :
  ∃ m' inn' printed,
    parseChunkIDs (bytes "A;1" ++ [LF] ++ bytes "B;2" ++ [LF] ++ bytes "A;3") ∅ newIntern
      = Some (m', inn') ∧
    output m' inn' = Some printed ∧
    length printed = size m' ∧ NoDup printed.*1.
Proof. apply scan_output_each_station_once. vm_compute. reflexivity. Defined.

(** X13: the value parser reads exactly one line: on a text without line
    feed that is followed by a line feed it returns the value of the text
    alone, wherever the text stands, leaves the read position right behind
    that line feed, and its value is an [int32]. *)
Theorem parseTemp_reads_one_line (v r : list byte) (i : Z) :
  LF ∉ v →
  parseTemp (v ++ LF :: r) i = ((parseTemp v 0).1, (r, i + Z.of_nat (length v) + 1)) ∧
  - 2 ^ 31 ≤ (parseTemp v 0).1 < 2 ^ 31.
Proof.
  intros Hv. split; [|apply parseTemp_range].
  destruct (parseTemp_line v r i Hv) as (E1 & E2 & _).
  destruct (parseTemp_advance (v ++ LF :: r) i) as (k & Hk & Hi & Hle).
  destruct (parseTemp (v ++ LF :: r) i) as [t [r' i']]. simpl in *. subst r'.
  f_equal; [done|]. f_equal.
  apply (f_equal length) in Hk. rewrite length_drop in Hk.
  rewrite length_app in Hk, Hle. simpl in Hk, Hle. lia.
Qed.

Lemma parseTemp_reads_one_line_witness :
  parseTemp (bytes "-3.2" ++ LF :: bytes "B;1") 2
    = ((parseTemp (bytes "-3.2") 0).1, (bytes "B;1", 2 + Z.of_nat (length (bytes "-3.2")) + 1)) ∧
  - 2 ^ 31 ≤ (parseTemp (bytes "-3.2") 0).1 < 2 ^ 31.
Proof. apply parseTemp_reads_one_line. apply not_elem_of_bytes. reflexivity. Defined.

(** X14: the value parser is lenient about what follows the value: after
    [sign]digits'.'digit any bytes may follow, and after [sign]digits any
    byte that is neither a digit nor the point, and the result is the value
    of that prefix in tenths (modulo 2^32). *)
Theorem parseTemp_ignores_rest_of_line (d : decimalText) (g : list byte) (i : Z) :
  wellFormed d →
  (dfrac d = None → ∀ c g', g = c :: g' → isDigit c = false ∧ c ≠ "."%byte) →
  (parseTemp (render d ++ g) i).1 = int32 (scaled d).
Proof. apply parseTemp_tail. Qed.

Lemma parseTemp_ignores_rest_of_line_witness :
  (parseTemp (render {| dsign := Minus; dint := bytes "12"; dfrac := Some "3"%byte |}
              ++ bytes "45xyz") 0).1
  = int32 (scaled {| dsign := Minus; dint := bytes "12"; dfrac := Some "3"%byte |}).
Proof.
  apply parseTemp_ignores_rest_of_line.
  - split_and!; [done | | done]. repeat constructor.
  - intros H. discriminate H.
Defined.

(** ** The whole pipeline *)

Lemma partition_in_bounds data workers i :
  0 < workers → 0 ≤ i < workers →
  ∃ s e,
    partition data workers (Z.of_nat (length data) `quot` workers) i = Some (s, e) ∧
    0 ≤ s ∧ s ≤ e ∧ e ≤ Z.of_nat (length data) ∧
    (i = 0 → s = 0) ∧ (i = workers - 1 → e = Z.of_nat (length data)).
Proof.
  intros Hw Hi. rewrite (partition_closed data workers Hw i Hi).
  pose proof (chunk_bounds data workers Hw) as [Hc Hwc].
  pose proof (naiveEnd_bounds data workers Hw i Hi) as Hn.
  set (nend := naiveEnd data workers _ i) in *.
  set (chunk := Z.of_nat (length data) `quot` workers) in *.
  assert (0 ≤ i * chunk) by nia.
  pose proof (lfIndex_le (drop (Z.to_nat (i * chunk)) data)) as HL1.
  pose proof (lfIndex_le (drop (Z.to_nat nend) data)) as HL2.
  pose proof (length_drop_Z data (i * chunk) ltac:(lia)) as E1.
  pose proof (length_drop_Z data nend ltac:(lia)) as E2.
  assert (Hlast : i = workers - 1 → nend = Z.of_nat (length data)).
  { intros ->. unfold nend, naiveEnd. by rewrite decide_True. }
  eexists _, _. split; [done|].
  repeat case_decide; split_and!; lia.
Qed.

Lemma partitions_total data workers :
  0 < workers →
  ∃ parts,
    partitions data workers = Some parts ∧ length parts = Z.to_nat workers ∧
    ∀ (i : nat) s e, parts !! i = Some (s, e) →
      0 ≤ s ∧ s ≤ e ∧ e ≤ Z.of_nat (length data) ∧
      (i = 0%nat → s = 0) ∧ (S i = length parts → e = Z.of_nat (length data)).
Proof.
  intros Hw.
  assert (Hsome : is_Some (partitions data workers)).
  { unfold partitions. rewrite decide_False by lia. cbv zeta.
    apply mapM_is_Some, Forall_forall. intros i Hi%elem_of_seqZ. simpl.
    destruct (partition_in_bounds data workers i Hw ltac:(lia)) as (s & e & -> & _). done. }
  destruct Hsome as [parts Hp]. exists parts.
  assert (Hlen : length parts = Z.to_nat workers).
  { pose proof Hp as Hp'. unfold partitions in Hp'. rewrite decide_False in Hp' by lia.
    apply length_mapM in Hp'. rewrite <- Hp', length_seqZ. lia. }
  split_and!; [done | done |]. intros i s e Hi.
  destruct (partitions_lookup data workers parts i s e Hp Hi) as [Hlt Hpi].
  destruct (partition_in_bounds data workers (Z.of_nat i) Hw ltac:(lia))
    as (s' & e' & Hpi' & H1 & H2 & H3 & H4 & H5).
  rewrite Hpi in Hpi'. injection Hpi' as <- <-.
  split_and!; try done; [lia | intros; apply H5; lia].
Qed.





Lemma slice_is_Some {A} (buf : list A) s e :
  0 ≤ s → s ≤ e → e ≤ Z.of_nat (length buf) → is_Some (slice buf s e).
Proof. intros. unfold slice. rewrite decide_True by lia. done. Qed.




(** X15: the dispatch loop never slices out of range: for any input and any
    positive number of workers it yields one range per worker, every range
    satisfies 0 <= start <= end <= len(data), so [data[start:end]] never
    panics, the first range starts at 0 and the last one ends at the end of
    the input. *)
Theorem partitions_in_range (data : list byte) (workers : Z) :
  0 < workers →
  ∃ parts bufs,
    partitions data workers = Some parts ∧
    slices data parts = Some bufs ∧
    length parts = Z.to_nat workers ∧
    ∀ (i : nat) s e, parts !! i = Some (s, e) →
      0 ≤ s ∧ s ≤ e ∧ e ≤ Z.of_nat (length data) ∧
      (i = 0%nat → s = 0) ∧ (S i = length parts → e = Z.of_nat (length data)).
Proof.
  intros Hw. destruct (partitions_total data workers Hw) as (parts & Hp & Hl & Hr).
  assert (Hs : is_Some (slices data parts)).
  { unfold slices. apply mapM_is_Some, Forall_forall. intros [s e] Hin. simpl.
    apply list_elem_of_lookup in Hin as [i Hi].
    destruct (Hr i s e Hi) as (? & ? & ? & _). by apply slice_is_Some. }
  destruct Hs as [bufs Hs]. by exists parts, bufs.
Qed.

Lemma partitions_in_range_witness :
  ∃ parts bufs,
    partitions (bytes "AAAA;1" ++ [LF]) 3 = Some parts ∧
    slices (bytes "AAAA;1" ++ [LF]) parts = Some bufs ∧
    length parts = Z.to_nat 3 ∧
    ∀ (i : nat) s e, parts !! i = Some (s, e) →
      0 ≤ s ∧ s ≤ e ∧ e ≤ Z.of_nat (length (bytes "AAAA;1" ++ [LF])) ∧
      (i = 0%nat → s = 0) ∧
      (S i = length parts → e = Z.of_nat (length (bytes "AAAA;1" ++ [LF]))).
Proof. apply partitions_in_range. lia. Defined.







(** ** Phase 1 of the shard-file variant *)

Lemma findSepFrom_spec b : ∀ i,
  (";"%byte ∉ b → GoV1.findSepFrom b i = -1) ∧
  (∀ k r, b = k ++ ";"%byte :: r → ";"%byte ∉ k →
     GoV1.findSepFrom b i = i + Z.of_nat (length k)).
Proof.
  induction b as [|c b IH]; intros i; simpl.
  - split; [done|]. intros [|??] ? H; discriminate H.
  - case_decide as Hc.
    + subst. split.
      * intros H. exfalso. apply H, list_elem_of_here.
      * intros [|c k] r Hk Hnk; [simpl; lia|].
        injection Hk as <- _. exfalso. apply Hnk, list_elem_of_here.
    + destruct (IH (i + 1)) as [IH1 IH2]. split.
      * intros H. apply IH1. intros Hin. apply H. by apply list_elem_of_further.
      * intros [|c' k] r Hk Hnk; simpl in Hk; [congruence|].
        injection Hk as <- ->. apply not_elem_of_cons in Hnk as [_ Hnk].
        rewrite (IH2 k r eq_refl Hnk). simpl length. lia.
Qed.

Lemma findSep_range b : -1 ≤ GoV1.findSep b < Z.of_nat (length b).
Proof.
  unfold GoV1.findSep. destruct (decide (";"%byte ∈ b)) as [Hin|Hnin].
  - destruct (split_first _ _ Hin) as (k & r & -> & Hk).
    rewrite (proj2 (findSepFrom_spec _ 0) k r eq_refl Hk).
    rewrite length_app. simpl. lia.
  - rewrite (proj1 (findSepFrom_spec _ 0) Hnin). destruct b; simpl; lia.
Qed.

Lemma fnv32a_range b : 0 ≤ GoV1.fnv32a b < 2 ^ 32.
Proof.
  unfold GoV1.fnv32a.
  assert (H : ∀ h, 0 ≤ h < 2 ^ 32 →
    0 ≤ foldl (fun h c => (Z.lxor h (byteZ c) * 16777619) mod 2 ^ 32) h b < 2 ^ 32).
  { induction b as [|c b IH]; intros h Hh; simpl; [done|].
    apply IH. apply Z.mod_pos_bound. lia. }
  apply H. lia.
Qed.

Lemma shardIndex_range b : 0 ≤ GoV1.shardIndex b < GoV1.shardCount.
Proof.
  unfold GoV1.shardIndex, GoV1.shardCount. pose proof (fnv32a_range b) as H.
  rewrite Z.rem_mod_nonneg by lia. apply Z.mod_pos_bound. lia.
Qed.

Lemma slice_middle (a b c : list byte) :
  slice (a ++ b ++ c) (Z.of_nat (length a)) (Z.of_nat (length (a ++ b))) = Some b.
Proof.
  unfold slice. rewrite !length_app. rewrite decide_True by lia. f_equal.
  rewrite Nat2Z.id, drop_app_length.
  replace (Z.to_nat _) with (length b) by lia. by rewrite take_app_length.
Qed.

Lemma shardLoop_route data rest : ∀ pre cur sb,
  data = pre ++ cur ++ rest → LF ∉ cur →
  GoV1.shardLoop data rest (Z.of_nat (length (pre ++ cur))) (Z.of_nat (length pre)) sb
  = Some (foldl routeLine sb (terminated rest cur)).
Proof.
  induction rest as [|c rest IH]; intros pre cur sb Hd Hcur; simpl; [done|].
  assert (Hi : ∀ x, Z.of_nat (length (pre ++ cur)) + 1 = Z.of_nat (length (pre ++ cur ++ [x]))).
  { intros x. rewrite !length_app. simpl. lia. }
  destruct (decide (c = LF)) as [->|Hc].
  - rewrite decide_False by (intros H; by apply H).
    assert (slice data (Z.of_nat (length pre)) (Z.of_nat (length (pre ++ cur))) = Some cur)
      as -> by (rewrite Hd; apply slice_middle).
    assert (Hnext : ∀ sb', GoV1.shardLoop data rest
                     (Z.of_nat (length (pre ++ cur)) + 1)
                     (Z.of_nat (length (pre ++ cur)) + 1) sb'
                   = Some (foldl routeLine sb' (terminated rest []))).
    { intros sb'. rewrite (Hi LF).
      rewrite <- (app_nil_r (pre ++ cur ++ [LF])) at 1.
      apply IH; [|apply not_elem_of_nil].
      rewrite Hd, <- !app_assoc. simpl. done. }
    cbn [foldl]. unfold routeLine at 2.
    pose proof (findSep_range cur) as Hr.
    case_decide as Hlen.
    { destruct cur; [|simpl in Hlen; lia]. simpl. apply Hnext. }
    case_decide as Hsep; [apply Hnext|].
    unfold slice. rewrite decide_True by lia.
    rewrite Z.sub_0_r. simpl drop. apply Hnext.
  - rewrite decide_True by done. rewrite (Hi c).
    apply (IH pre (cur ++ [c])).
    + rewrite Hd, <- !app_assoc. by simpl.
    + apply not_elem_of_app. split; [done|].
      apply not_elem_of_cons. split; [congruence | apply not_elem_of_nil].
Qed.

Lemma routeLine_length sb line : length (routeLine sb line) = length sb.
Proof. unfold routeLine. case_decide; [done|]. apply length_insert. Qed.

Lemma route_lookup ls : ∀ sb (s : nat) x,
  length sb = Z.to_nat GoV1.shardCount → sb !! s = Some x →
  foldl routeLine sb ls !! s = Some (x ++ shardText s ls).
Proof.
  induction ls as [|l ls IH]; intros sb s x Hlen Hs; simpl.
  - unfold shardText, shardLines. simpl. by rewrite app_nil_r.
  - unfold shardText, shardLines. rewrite filter_cons.
    fold (shardLines s ls).
    set (sh := Z.to_nat (GoV1.shardIndex (take (Z.to_nat (GoV1.findSep l)) l))).
    pose proof (shardIndex_range (take (Z.to_nat (GoV1.findSep l)) l)) as Hr.
    unfold routeLine at 2. fold sh.
    case_decide as Hsep.
    + rewrite decide_False by lia. by apply IH.
    + destruct (decide (sh = s)) as [Heq|Hne].
      * rewrite decide_True by (split; [lia | done]).
        rewrite fmap_cons. cbn [concat]. fold (shardText s ls).
        rewrite (app_assoc x).
        apply IH; [by rewrite length_insert|].
        rewrite Heq, list_lookup_insert_eq by (apply lookup_lt_Some in Hs; done).
        by rewrite (list_lookup_total_correct _ _ _ Hs).
      * rewrite decide_False by (intros [_ ?]; done).
        apply IH; [by rewrite length_insert|].
        by rewrite list_lookup_insert_ne.
Qed.

(** X19: [findSep] returns the index of the first semicolon, and -1 exactly
    when there is none; its result is always below the length. *)
Theorem GoV1_findSep_first_semicolon (b : list byte) :
  (GoV1.findSep b = -1 ↔ ";"%byte ∉ b) ∧
  (∀ k r, b = k ++ ";"%byte :: r → ";"%byte ∉ k → GoV1.findSep b = Z.of_nat (length k)) ∧
  -1 ≤ GoV1.findSep b < Z.of_nat (length b).
Proof.
  split; [|split; [|apply findSep_range]].
  2:{ intros k r Hb Hk. unfold GoV1.findSep.
      rewrite (proj2 (findSepFrom_spec b 0) k r Hb Hk). lia. }
  split; [|apply (proj1 (findSepFrom_spec b 0))].
  intros H Hin. destruct (split_first _ _ Hin) as (k & r & -> & Hk).
  unfold GoV1.findSep in H.
  rewrite (proj2 (findSepFrom_spec _ 0) k r eq_refl Hk) in H. lia.
Qed.

(** X20: [shardIndex] always selects one of the 32 shard buffers: the hash
    is a 32-bit value and its remainder lies in [0, shardCount), so
    [shardBuf[sh]] cannot be out of range. *)
Theorem GoV1_shardIndex_in_range (b : list byte) :
  0 ≤ GoV1.fnv32a b < 2 ^ 32 ∧
  0 ≤ GoV1.shardIndex b < GoV1.shardCount ∧
  is_Some (replicate (Z.to_nat GoV1.shardCount) ([] : list byte)
             !! Z.to_nat (GoV1.shardIndex b)).
Proof.
  pose proof (shardIndex_range b) as H.
  split; [apply fnv32a_range|]. split; [done|].
  apply lookup_lt_is_Some. rewrite length_replicate. lia.
Qed.

(** X21: phase 1 of the shard-file variant routes whole lines: on any
    non-empty file it does not panic, and shard buffer [s] holds, in file
    order and each followed by its line feed, exactly the lines ended by a
    line feed that have a semicolon behind a non-empty station whose hash
    selects [s]; all other lines (empty, without semicolon, with an empty
    station, or not ended by a line feed) reach no shard. *)
Theorem GoV1_shards_hold_routed_lines (data : list byte) :
  data ≠ [] →
  ∃ shardBuf,
    GoV1.shardPhase (Some data) = Some shardBuf ∧
    length shardBuf = Z.to_nat GoV1.shardCount ∧
    ∀ s : nat, (s < Z.to_nat GoV1.shardCount)%nat →
      shardBuf !! s = Some (shardText s (terminated data [])).
Proof.
  intros Hd. unfold GoV1.shardPhase, GoV1.mmapFile.
  rewrite decide_False by (destruct data; [done | simpl; lia]).
  pose proof (shardLoop_route data data [] [] (replicate (Z.to_nat GoV1.shardCount) [])
                eq_refl (not_elem_of_nil _)) as H.
  simpl length in H. change (Z.of_nat 0) with 0 in H. rewrite H.
  eexists. split; [done|]. split.
  - assert (Hl : ∀ ls sb, length (foldl routeLine sb ls) = length sb).
    { induction ls as [|l ls IH]; intros sb; simpl; [done|].
      by rewrite IH, routeLine_length. }
    by rewrite Hl, length_replicate.
  - intros s Hs.
    rewrite (route_lookup _ _ s []); [done | by rewrite length_replicate |].
    by apply lookup_replicate_2.
Qed.

Lemma GoV1_shards_hold_routed_lines_witness :
  ∃ shardBuf,
    GoV1.shardPhase (Some (bytes "A;1.0" ++ [LF] ++ bytes "junk" ++ [LF] ++ bytes "B;2.0"))
      = Some shardBuf ∧
    length shardBuf = Z.to_nat GoV1.shardCount ∧
    ∀ s : nat, (s < Z.to_nat GoV1.shardCount)%nat →
      shardBuf !! s =
      Some (shardText s (terminated (bytes "A;1.0" ++ [LF] ++ bytes "junk" ++ [LF]
                                     ++ bytes "B;2.0") [])).
Proof. apply GoV1_shards_hold_routed_lines. done. Defined.

(** ** The overlap-read variant *)

Lemma recordCity_lookup_eq m c t :
  recordCity m c t !! c =
  Some (match m !! c with
        | Some st =>
            {| min := if decide (t < min st) then t else min st;
               max := if decide (t > max st) then t else max st;
               sum := int64 (sum st + int64 t);
               count := int64 (count st + 1) |}
        | None => {| min := t; max := t; sum := int64 t; count := 1 |}
        end).
Proof. unfold recordCity. destruct (m !! c); by rewrite lookup_insert_eq. Qed.

Lemma recordCity_other m c t k : k ≠ c → recordCity m c t !! k = m !! k.
Proof. intros H. unfold recordCity. destruct (m !! c); by rewrite lookup_insert_ne. Qed.

Lemma sameStats_step mS m inn k t id inn' :
  wfIntern inn → wfIntern inn' → sameStats mS m inn →
  index (names inn') id = Some k →
  ((k ∈ names inn ∧ inn' = inn) ∨ ((k ∉ names inn) ∧ names inn' = names inn ++ [k])) →
  sameStats (recordCity mS k t) (record m id t) inn'.
Proof.
  intros Hwf Hwf' (H1 & H2 & H3) Hid Hcase.
  assert (Hpre : names inn `prefix_of` names inn').
  { destruct Hcase as [[_ ->] | [_ ->]]; [done | by apply prefix_app_r]. }
  assert (Hold : mS !! k = m !! id).
  { destruct Hcase as [[_ ->] | [Hnin Hn]]; [by apply H1|].
    rewrite (H2 k Hnin). symmetry.
    destruct (m !! id) as [st|] eqn:E; [|done].
    destruct (H3 id st E) as [x Hx]. unfold Name in Hx.
    pose proof (index_app_l _ [k] _ _ Hx) as Hx'. rewrite <- Hn in Hx'.
    rewrite Hx' in Hid. injection Hid as ->.
    exfalso. apply Hnin. apply index_Some in Hx as [_ Hx].
    by eapply list_elem_of_lookup_2. }
  split_and!.
  - intros id2 k2 Hn2. unfold Name in Hn2.
    destruct (decide (id2 = id)) as [->|Hne].
    + rewrite Hid in Hn2. injection Hn2 as <-.
      by rewrite recordCity_lookup_eq, record_lookup_eq, Hold.
    + assert (k2 ≠ k).
      { intros ->. apply Hne.
        apply index_Some in Hid as [? Hid]. apply index_Some in Hn2 as [? Hn2].
        pose proof (NoDup_lookup _ _ _ _ (wf_nodup _ Hwf') Hid Hn2). lia. }
      rewrite recordCity_other, record_other by done.
      destruct Hcase as [[_ ->] | [Hnin Hn]]; [by apply H1|].
      destruct (decide (k2 ∈ names inn)) as [Hin|Hnin2].
      * apply list_elem_of_lookup in Hin as [j Hj].
        assert (index (names inn) (Z.of_nat j) = Some k2) as Hj'
          by (by rewrite index_of_nat).
        pose proof (index_app_l _ [k] _ _ Hj') as Hj2. rewrite <- Hn in Hj2.
        apply index_Some in Hj2 as [? Hj2]. apply index_Some in Hn2 as [? Hn2].
        pose proof (NoDup_lookup _ _ _ _ (wf_nodup _ Hwf') Hj2 Hn2).
        replace id2 with (Z.of_nat j) by lia. by apply H1.
      * exfalso. apply index_Some in Hn2 as [? Hn2].
        apply list_elem_of_lookup_2 in Hn2. rewrite Hn in Hn2.
        apply elem_of_app in Hn2 as [?|Hk%list_elem_of_singleton]; done.
  - intros k2 Hk2.
    assert (k2 ≠ k).
    { intros ->. apply Hk2. apply index_Some in Hid as [_ Hid].
      by eapply list_elem_of_lookup_2. }
    rewrite recordCity_other by done. apply H2.
    intros Hin. apply Hk2. destruct Hpre as [l ->]. apply elem_of_app. by left.
  - by eapply keysValid_step.
Qed.

Lemma parseChunkLoop_sim fuel : ∀ buf rest i mS m inn,
  0 ≤ i → drop (Z.to_nat i) buf = rest →
  wfIntern inn →
  Z.of_nat (length (names inn)) + Z.of_nat (length rest) < 2 ^ 31 →
  sameStats mS m inn →
  ∃ mS' m' inn',
    parseChunkLoop fuel buf rest i mS = Some mS' ∧
    parseLoop fuel buf rest i m inn = Some (m', inn') ∧
    wfIntern inn' ∧ sameStats mS' m' inn'.
Proof.
  induction fuel as [|fuel IH]; intros buf rest i mS m inn Hi Hd Hwf Hb HR; simpl.
  { by exists mS, m, inn. }
  destruct rest as [|b rest0] eqn:Hrest; [by exists mS, m, inn|]. rewrite <- Hrest in *.
  assert (Hlen : i ≤ Z.of_nat (length buf)).
  { destruct (decide (Z.to_nat i < length buf)%nat); [lia|].
    rewrite drop_ge in Hd by lia. congruence. }
  pose proof (findSemi_spec buf rest i i [] Hi ltac:(lia) Hd (slice_nil buf i ltac:(lia))) as Hf.
  destruct (splitSemi rest []) as [[k r]|].
  - destruct Hf as (ls1 & semi & i1 & -> & Hsemi & Hk & Hadv & Hlt).
    rewrite decide_False by lia.
    destruct (advance_drop _ _ _ _ _ Hi Hd Hadv) as [Hi1 Hd1].
    pose proof (parseTemp_advance r i1) as Hadv2.
    destruct (parseTemp r i1) as [t [r2 i2]]. simpl in Hadv2.
    rewrite Hk.
    destruct (GetOrAdd_spec inn k Hwf ltac:(lia)) as (id & inn1 & Hg & Hwf1 & Hid & Hcase).
    rewrite Hg. try rewrite decide_False by lia.
    destruct (advance_drop _ _ _ _ _ Hi1 Hd1 Hadv2) as [Hi2 Hd2].
    pose proof (advance_length _ _ _ _ Hadv2) as Hl2.
    apply IH; try done.
    + destruct Hcase as [[_ ->] | [_ ->]]; [lia|]. rewrite length_app. simpl. lia.
    + exact (sameStats_step mS m inn k t id inn1 Hwf Hwf1 HR Hid Hcase).
  - destruct (findSemi rest i i) as [[semi [r1 i1]] ls1]. simpl in Hf. subst semi.
    rewrite decide_True by lia. by exists mS, m, inn.
Qed.

Lemma works_lookup n : ∀ i s size chunk workers (j : nat) a b,
  i + Z.of_nat n ≤ workers →
  Part002.works n i s size chunk workers !! j = Some (a, b) →
  a = s + Z.of_nat j * chunk ∧
  b = (if decide (i + Z.of_nat j = workers - 1) then size - 1
       else s + (Z.of_nat j + 1) * chunk - 1).
Proof.
  induction n as [|n IH]; intros i s size chunk workers j a b Hn Hj; [done|].
  cbn [Part002.works] in Hj. destruct j as [|j].
  - injection Hj as <- <-. change (Z.of_nat 0) with 0.
    split; [lia|]. repeat case_decide; lia.
  - cbn [lookup list_lookup] in Hj.
    assert (0 < n)%nat by (destruct n; [done | lia]).
    rewrite (decide_False (P := i = workers - 1)) in Hj by lia.
    apply IH in Hj as [-> ->]; [|lia].
    split; [lia|]. repeat case_decide; lia.
Qed.

Lemma works_length n : ∀ i s size chunk workers,
  length (Part002.works n i s size chunk workers) = n.
Proof. induction n as [|n IH]; intros; simpl; [done|]. by rewrite IH. Qed.

Lemma skipPartial_closed rest : ∀ offset,
  Part002.skipPartial rest offset =
  offset + (if decide (lfIndex rest < length rest)%nat
            then Z.of_nat (lfIndex rest) + 1 else Z.of_nat (length rest)).
Proof.
  induction rest as [|c rest IH]; intros offset; cbn [Part002.skipPartial lfIndex length].
  - repeat case_decide; simpl in *; lia.
  - destruct (decide (c = LF)) as [Hc|Hc].
    + repeat case_decide; simpl in *; lia.
    + rewrite IH. repeat case_decide; simpl in *; lia.
Qed.

Lemma scanBack_spec buf : ∀ k : nat,
  (k ≤ length buf)%nat →
  ∃ j, Part002.scanBack buf k = Some j ∧ -1 ≤ j < Z.of_nat k ∧
       (0 ≤ j → buf !! Z.to_nat j = Some LF) ∧
       ∀ q : nat, j < Z.of_nat q → (q < k)%nat → buf !! q ≠ Some LF.
Proof.
  induction k as [|k IH]; intros Hk; simpl.
  - exists (-1). split_and!; try done; lia.
  - destruct (lookup_lt_is_Some_2 buf k ltac:(lia)) as [c Hc]. rewrite Hc.
    case_decide as Hne.
    + destruct (IH ltac:(lia)) as (j & Hj & Hr & Hlf & Hno).
      exists j. split_and!; try done; try lia.
      intros q Hq1 Hq2. destruct (decide (q = k)) as [->|Hqk].
      * rewrite Hc. congruence.
      * apply Hno; lia.
    + exists (Z.of_nat k). split_and!; try done; try lia.
      * intros _. rewrite Nat2Z.id, Hc. f_equal.
        destruct (decide (c = LF)) as [|Hn]; [done|]. exfalso. tauto.
Qed.

Lemma slice_lookup (file : list byte) s e buf (k : nat) :
  slice file s e = Some buf → Z.of_nat k < e - s →
  buf !! k = index file (s + Z.of_nat k).
Proof.
  unfold slice. case_decide as H; [|done]. intros [= <-] Hk.
  rewrite lookup_take_lt by lia. rewrite lookup_drop.
  unfold index. rewrite decide_True by lia. f_equal. lia.
Qed.

Lemma slice_length_eq (file : list byte) s e buf :
  slice file s e = Some buf → Z.of_nat (length buf) = e - s.
Proof.
  unfold slice. case_decide as H; [|done]. intros [= <-].
  rewrite length_take, length_drop. lia.
Qed.

Lemma window_spec file start end_ :
  0 ≤ start → start ≤ end_ + 1 → end_ < Z.of_nat (length file) →
  ∃ r, Part002.window file (start, end_) = Some r ∧
    match r with
    | None =>
        start ≠ 0 ∧
        ∀ q, start ≤ q < readEndOf file end_ → index file q ≠ Some LF
    | Some (a, b) =>
        start ≤ a ∧ a ≤ b ∧ b ≤ readEndOf file end_ + 1 ∧
        (start = 0 → a = 0) ∧
        (start ≠ 0 →
           start < a ∧ index file (a - 1) = Some LF ∧
           ∀ q, start ≤ q < a - 1 → index file q ≠ Some LF) ∧
        (end_ = Z.of_nat (length file) - 1 → b = Z.of_nat (length file)) ∧
        (end_ < Z.of_nat (length file) - 1 →
           (index file (b - 1) = Some LF ∧
            ∀ q, b ≤ q ≤ readEndOf file end_ → index file q ≠ Some LF) ∨
           (b = readEndOf file end_ + 1 ∧
            ∀ q, start ≤ q ≤ readEndOf file end_ → index file q ≠ Some LF))
    end.
Proof.
  intros H0 H1 H2. unfold Part002.window.
  change (if decide (end_ + Part002.overlap >= Z.of_nat (length file))
          then Z.of_nat (length file) - 1 else end_ + Part002.overlap)
    with (readEndOf file end_).
  assert (Hre : end_ ≤ readEndOf file end_ ≤ Z.of_nat (length file) - 1).
  { unfold readEndOf, Part002.overlap. case_decide; lia. }
  assert (Hlast : end_ = Z.of_nat (length file) - 1 →
                  readEndOf file end_ = Z.of_nat (length file) - 1).
  { intros ->. unfold readEndOf, Part002.overlap. rewrite decide_True; lia. }
  set (readEnd := readEndOf file end_) in *.
  set (readLen := readEnd - start + 1).
  assert (HreadLen : 0 ≤ readLen) by (unfold readLen; lia).
  destruct (slice file start (start + readLen)) as [buf|] eqn:Hs.
  2:{ unfold slice in Hs. rewrite decide_True in Hs by (unfold readLen; lia). done. }
  pose proof (slice_length_eq _ _ _ _ Hs) as Hlb.
  assert (Hbuf : ∀ k : nat, Z.of_nat k < readLen → buf !! k = index file (start + Z.of_nat k)).
  { intros k Hk. apply (slice_lookup _ _ _ _ _ Hs). lia. }
  assert (Hlen : Z.of_nat (length buf) = readLen) by lia.
  clear Hlb Hs.
  (* the start of the range *)
  rewrite skipPartial_closed, Z.add_0_l.
  pose proof (lfIndex_le buf) as HL.
  pose proof (lfIndex_lookup buf) as HLl.
  pose proof (lfIndex_first buf) as HLf.
  set (L := lfIndex buf) in *.
  (* the end of the range *)
  destruct (scanBack_spec buf (Z.to_nat readLen) ltac:(lia)) as (j & Hj & Hjr & Hjl & Hjn).
  rewrite Hj.
  assert (Hq : ∀ q, start ≤ q ≤ readEnd → ∃ k : nat, q = start + Z.of_nat k ∧ Z.of_nat k < readLen).
  { intros q Hq. exists (Z.to_nat (q - start)). unfold readLen. lia. }
  destruct (decide (start ≠ 0)) as [Hne|Heq].
  - (* a worker other than the first *)
    destruct (decide (L < length buf)%nat) as [HLlt|HLge].
    + destruct (decide (Z.of_nat L + 1 >= readLen)) as [Hret|Hgo].
      * rewrite decide_True by (split; [done | lia]).
        eexists. split; [done|]. split; [done|].
        intros q Hq' Hlf. destruct (Hq q ltac:(lia)) as (k & -> & Hk).
        rewrite <- Hbuf in Hlf by done. apply HLf in Hlf. lia.
      * rewrite decide_False by (intros [_ ?]; apply Hgo; lia).
        assert (HL1 : Z.of_nat L + 1 < readLen) by lia.
        assert (Hfirst : index file (start + Z.of_nat L) = Some LF).
        { rewrite <- Hbuf by lia. by apply HLl. }
        assert (Hbefore : ∀ q, start ≤ q < start + Z.of_nat L → index file q ≠ Some LF).
        { intros q Hq' Hlf. destruct (Hq q ltac:(lia)) as (k & -> & Hk).
          rewrite <- Hbuf in Hlf by done. apply HLf in Hlf. lia. }
        case_decide as Hend.
        -- (* not the last worker: the last line feed is at or behind the first *)
           assert (HjL : Z.of_nat L ≤ j).
           { destruct (decide (Z.of_nat L ≤ j)); [done|]. exfalso.
             apply (Hjn L); [lia | lia | by apply HLl]. }
           rewrite decide_True by lia.
           unfold slice. rewrite decide_True by lia.
           eexists. split; [done|]. cbn beta iota.
           split_and!; try lia.
           ++ intros _. split; [lia|].
              replace (start + (Z.of_nat L + 1) - 1) with (start + Z.of_nat L) by lia.
              split; [done|]. intros q Hq'. apply Hbefore. lia.
           ++ intros _. left. split.
              ** replace (start + (j + 1) - 1) with (start + Z.of_nat (Z.to_nat j)) by lia.
                 rewrite <- Hbuf by lia. apply Hjl. lia.
              ** intros q Hq' Hlf. destruct (Hq q ltac:(lia)) as (k & -> & Hk).
                 rewrite <- Hbuf in Hlf by done. apply (Hjn k); [lia | lia | done].
        -- unfold slice. rewrite decide_True by lia.
           eexists. split; [done|]. cbn beta iota.
           split_and!; try lia.
           ++ intros _. split; [lia|].
              replace (start + (Z.of_nat L + 1) - 1) with (start + Z.of_nat L) by lia.
              split; [done|]. intros q Hq'. apply Hbefore. lia.
    + rewrite decide_True by (split; [done | lia]).
      eexists. split; [done|]. split; [done|].
      intros q Hq' Hlf. destruct (Hq q ltac:(lia)) as (k & -> & Hk).
      rewrite <- Hbuf in Hlf by done. apply HLf in Hlf. lia.
  - (* the first worker *)
    assert (start = 0) as Hz by lia.
    rewrite decide_False by (intros [? _]; done).
    case_decide as Hend.
    + case_decide as Hjpos.
      * unfold slice. rewrite decide_True by lia.
        eexists. split; [done|]. cbn beta iota.
        split_and!; try lia.
        intros _. left. split.
        -- replace (start + (j + 1) - 1) with (start + Z.of_nat (Z.to_nat j)) by lia.
           rewrite <- Hbuf by lia. apply Hjl. lia.
        -- intros q Hq' Hlf. destruct (Hq q ltac:(lia)) as (k & -> & Hk).
           rewrite <- Hbuf in Hlf by done. apply (Hjn k); [lia | lia | done].
      * unfold slice. rewrite decide_True by lia.
        eexists. split; [done|]. cbn beta iota.
        split_and!; try lia.
        intros _. right. split; [unfold readLen; lia|].
        intros q Hq' Hlf. destruct (Hq q ltac:(lia)) as (k & -> & Hk).
        rewrite <- Hbuf in Hlf by done. apply (Hjn k); [lia | lia | done].
    + unfold slice. rewrite decide_True by lia.
      eexists. split; [done|]. cbn beta iota.
      split_and!; lia.
Qed.

Lemma works_valid size workers (j : nat) s e :
  0 < workers → 0 < size →
  Part002.works (Z.to_nat workers) 0 0 size (size `quot` workers) workers !! j = Some (s, e) →
  0 ≤ s ∧ s ≤ e + 1 ∧ e < size ∧
  (Z.of_nat j = workers - 1 → e = size - 1) ∧
  (Z.of_nat j ≠ workers - 1 → e < size - 1).
Proof.
  intros Hw Hs Hj.
  pose proof (lookup_lt_Some _ _ _ Hj) as Hlt. rewrite works_length in Hlt.
  apply works_lookup in Hj as [-> ->]; [|lia].
  assert (Hc : 0 ≤ size `quot` workers ∧ workers * (size `quot` workers) ≤ size).
  { rewrite Z.quot_div_nonneg by lia.
    split; [apply Z.div_pos; lia | apply Z.mul_div_le; lia]. }
  set (chunk := size `quot` workers) in *.
  rewrite !Z.add_0_l. case_decide; split_and!; try lia; nia.
Qed.

(** X22: the two scanners compute the same statistics: on any buffer of
    less than 2^31 bytes [parseChunk] (keyed by name) does not panic, and
    the entry it holds for a name is the entry [parseChunkIDs] holds for the
    identifier of that name; the names of one map are exactly the names of
    the identifiers of the other. *)
Theorem parseChunk_same_statistics (buf : list byte) :
  Z.of_nat (length buf) < 2 ^ 31 →
  ∃ mS m inn,
    parseChunk buf ∅ = Some mS ∧
    parseChunkIDs buf ∅ newIntern = Some (m, inn) ∧
    (∀ id k, Name inn id = Some k → mS !! k = m !! id) ∧
    (∀ k, is_Some (mS !! k) → k ∈ names inn) ∧
    (∀ id, is_Some (m !! id) → is_Some (Name inn id)).
Proof.
  intros Hb. unfold parseChunk, parseChunkIDs.
  assert (Hn : Z.of_nat (length (names newIntern)) + Z.of_nat (length buf) < 2 ^ 31).
  { unfold newIntern. cbn [names]. simpl length. lia. }
  assert (HR : sameStats ∅ ∅ newIntern).
  { split_and!; [|done|apply keysValid_empty].
    intros id k _. by rewrite !lookup_empty. }
  destruct (parseChunkLoop_sim (length buf) buf buf 0 ∅ ∅ newIntern
              ltac:(done) eq_refl wf_newIntern Hn HR)
    as (mS & m & inn & H1 & H2 & _ & (Hs1 & Hs2 & Hs3)).
  exists mS, m, inn. split_and!; try done.
  - intros k [st Hk]. destruct (decide (k ∈ names inn)); [done|].
    rewrite Hs2 in Hk by done. done.
  - intros id [st Hid]. by eapply Hs3.
Qed.

Lemma parseChunk_same_statistics_witness :
  ∃ mS m inn,
    parseChunk (bytes "A;1.5" ++ [LF] ++ bytes "B;2" ++ [LF] ++ bytes "A;-3") ∅ = Some mS ∧
    parseChunkIDs (bytes "A;1.5" ++ [LF] ++ bytes "B;2" ++ [LF] ++ bytes "A;-3") ∅ newIntern
      = Some (m, inn) ∧
    (∀ id k, Name inn id = Some k → mS !! k = m !! id) ∧
    (∀ k, is_Some (mS !! k) → k ∈ names inn) ∧
    (∀ id, is_Some (m !! id) → is_Some (Name inn id)).
Proof. apply parseChunk_same_statistics. vm_compute. reflexivity. Defined.

(** X23: the work list tiles the file: for any size and any positive number
    of workers there is one work per worker, work [j] starts at
    [j * chunk] and ends (inclusive) at [(j+1) * chunk - 1], the last one at
    [size - 1], and every work starts right behind the end of the one
    before. *)
Theorem Part002_works_tile_the_file (size workers : Z) :
  0 < workers →
  length (Part002.works (Z.to_nat workers) 0 0 size (size `quot` workers) workers)
    = Z.to_nat workers ∧
  ∀ (j : nat) s e,
    Part002.works (Z.to_nat workers) 0 0 size (size `quot` workers) workers !! j
      = Some (s, e) →
    s = Z.of_nat j * (size `quot` workers) ∧
    e = (if decide (Z.of_nat j = workers - 1) then size - 1
         else (Z.of_nat j + 1) * (size `quot` workers) - 1) ∧
    ∀ s' e',
      Part002.works (Z.to_nat workers) 0 0 size (size `quot` workers) workers !! S j
        = Some (s', e') → s' = e + 1.
Proof.
  intros Hw. split; [apply works_length|]. intros j s e Hj.
  pose proof (lookup_lt_Some _ _ _ Hj) as Hlt. rewrite works_length in Hlt.
  apply works_lookup in Hj as [-> ->]; [|lia]. rewrite !Z.add_0_l.
  split_and!; [done | done |]. intros s' e' Hj'.
  pose proof (lookup_lt_Some _ _ _ Hj') as Hlt'. rewrite works_length in Hlt'.
  apply works_lookup in Hj' as [-> _]; [|lia].
  rewrite decide_False by lia. lia.
Qed.

Lemma Part002_works_tile_the_file_witness :
  length (Part002.works (Z.to_nat 3) 0 0 10 (10 `quot` 3) 3) = Z.to_nat 3 ∧
  ∀ (j : nat) s e,
    Part002.works (Z.to_nat 3) 0 0 10 (10 `quot` 3) 3 !! j = Some (s, e) →
    s = Z.of_nat j * (10 `quot` 3) ∧
    e = (if decide (Z.of_nat j = 3 - 1) then 10 - 1
         else (Z.of_nat j + 1) * (10 `quot` 3) - 1) ∧
    ∀ s' e',
      Part002.works (Z.to_nat 3) 0 0 10 (10 `quot` 3) 3 !! S j = Some (s', e') →
      s' = e + 1.
Proof. apply Part002_works_tile_the_file. lia. Defined.

(** X24: the goroutines of the overlap-read variant never read or slice out
    of range and hand whole lines to [parseChunk]: for a non-empty file and
    a positive number of workers every worker either returns early or
    scans a range [a, b) of the file that starts at 0 or right behind a
    line feed and ends at the end of the file, right behind a line feed, or
    (when its whole read buffer holds no line feed) at the end of the read
    buffer; the last worker's range ends at the end of the file. *)
Theorem Part002_windows_line_aligned (file : list byte) (workers : Z) :
  file ≠ [] → 0 < workers →
  ∃ ws,
    Part002.windows file workers = Some ws ∧
    length ws = Z.to_nat workers ∧
    ∀ (i : nat) a b, ws !! i = Some (Some (a, b)) →
      0 ≤ a ∧ a ≤ b ∧ b ≤ Z.of_nat (length file) ∧
      (a = 0 ∨ index file (a - 1) = Some LF) ∧
      (b = Z.of_nat (length file) ∨ index file (b - 1) = Some LF ∨
       (a = 0 ∧ ∀ q, 0 ≤ q < b → index file q ≠ Some LF)) ∧
      (Z.of_nat i = workers - 1 → b = Z.of_nat (length file)).
Proof.
  intros Hf Hw. unfold Part002.windows. cbv zeta.
  assert (Hsz : 0 < Z.of_nat (length file)) by (destruct file; [done | simpl; lia]).
  set (wks := Part002.works _ _ _ _ _ _).
  assert (Hsome : is_Some (mapM (Part002.window file) wks)).
  { apply mapM_is_Some, Forall_forall. intros [s e] Hin.
    apply list_elem_of_lookup in Hin as [j Hj].
    destruct (works_valid _ _ _ _ _ Hw Hsz Hj) as (H1 & H2 & H3 & _).
    destruct (window_spec file s e H1 H2 H3) as (r & Hr & _).
    unfold compose. by rewrite Hr. }
  destruct Hsome as [ws Hws]. exists ws. split; [done|].
  pose proof (length_mapM _ _ _ Hws) as Hl. unfold wks in Hl. rewrite works_length in Hl.
  split; [done|]. intros i a b Hi.
  apply mapM_Some in Hws.
  destruct (Forall2_lookup_r _ _ _ _ _ Hws Hi) as ([s e] & Hj & Hwin).
  destruct (works_valid _ _ _ _ _ Hw Hsz Hj) as (H1 & H2 & H3 & H4 & H5).
  destruct (window_spec file s e H1 H2 H3) as (r & Hr & Hspec).
  rewrite Hwin in Hr. injection Hr as <-.
  destruct Hspec as (Ha & Hab & Hb & Hs0 & Hs1 & He1 & He2).
  assert (Hre : readEndOf file e ≤ Z.of_nat (length file) - 1).
  { unfold readEndOf, Part002.overlap. case_decide; lia. }
  split_and!; try lia.
  - destruct (decide (s = 0)) as [Hz|Hnz]; [left; by apply Hs0 | right; by apply Hs1].
  - destruct (decide (Z.of_nat i = workers - 1)) as [Hlast|Hnl]; [left; by apply He1, H4|].
    destruct (He2 (H5 Hnl)) as [[Hlf _] | [-> Hno]]; [by right; left|].
    destruct (decide (s = 0)) as [Hz|Hnz].
    + right; right. split; [by apply Hs0|]. intros q Hq. apply Hno. lia.
    + destruct (Hs1 Hnz) as (Hlt & Hlf & _). exfalso. apply (Hno (a - 1)); [lia | done].
Qed.

Lemma Part002_windows_line_aligned_witness :
  ∃ ws,
    Part002.windows (bytes "A;1" ++ [LF] ++ bytes "B;2" ++ [LF]) 2 = Some ws ∧
    length ws = Z.to_nat 2 ∧
    ∀ (i : nat) a b, ws !! i = Some (Some (a, b)) →
      0 ≤ a ∧ a ≤ b ∧ b ≤ Z.of_nat (length (bytes "A;1" ++ [LF] ++ bytes "B;2" ++ [LF])) ∧
      (a = 0 ∨ index (bytes "A;1" ++ [LF] ++ bytes "B;2" ++ [LF]) (a - 1) = Some LF) ∧
      (b = Z.of_nat (length (bytes "A;1" ++ [LF] ++ bytes "B;2" ++ [LF])) ∨
       index (bytes "A;1" ++ [LF] ++ bytes "B;2" ++ [LF]) (b - 1) = Some LF ∨
       (a = 0 ∧ ∀ q, 0 ≤ q < b →
          index (bytes "A;1" ++ [LF] ++ bytes "B;2" ++ [LF]) q ≠ Some LF)) ∧
      (Z.of_nat i = 2 - 1 →
       b = Z.of_nat (length (bytes "A;1" ++ [LF] ++ bytes "B;2" ++ [LF]))).
Proof. apply Part002_windows_line_aligned; [done | lia]. Defined.

Lemma readEndOf_mono file e1 e2 : e1 ≤ e2 → readEndOf file e1 ≤ readEndOf file e2.
Proof. intros H. unfold readEndOf, Part002.overlap. repeat case_decide; lia. Qed.

(** X25: consecutive workers of the overlap-read variant scan the same
    lines twice: when two line feeds [q1 < q2] lie behind the end of a work
    and inside what its goroutine reads (up to 1 MiB more), the line
    [file[q1+1 .. q2]] lies in the range that worker scans and in the range
    the next worker scans. *)
Theorem Part002_consecutive_windows_share_lines
    (file : list byte) (s1 e1 e2 q1 q2 : Z) :
  0 ≤ s1 → s1 ≤ e1 + 1 → e1 ≤ e2 → e2 < Z.of_nat (length file) →
  e1 + 1 ≤ q1 → q1 < q2 → q2 ≤ readEndOf file e1 →
  index file q1 = Some LF → index file q2 = Some LF →
  ∃ a1 b1 a2 b2,
    Part002.window file (s1, e1) = Some (Some (a1, b1)) ∧
    Part002.window file (e1 + 1, e2) = Some (Some (a2, b2)) ∧
    a1 ≤ q1 + 1 ∧ q2 < b1 ∧ a2 ≤ q1 + 1 ∧ q2 < b2.
Proof.
  intros H0 H1 H12 H2 Hq1 Hq12 Hq2 L1 L2.
  pose proof (readEndOf_mono file e1 e2 H12) as Hm.
  assert (Hre1 : readEndOf file e1 ≤ Z.of_nat (length file) - 1).
  { unfold readEndOf, Part002.overlap. case_decide; lia. }
  assert (Hre2 : readEndOf file e2 ≤ Z.of_nat (length file) - 1).
  { unfold readEndOf, Part002.overlap. case_decide; lia. }
  assert (Hstart : ∀ s a, 0 ≤ s → s ≤ e1 + 1 →
            (s = 0 → a = 0) →
            (s ≠ 0 → s < a ∧ index file (a - 1) = Some LF ∧
                     ∀ q, s ≤ q < a - 1 → index file q ≠ Some LF) →
            a ≤ q1 + 1).
  { intros s a Hs Hse Hz Hnz. destruct (decide (s = 0)) as [E|E]; [rewrite (Hz E); lia|].
    destruct (Hnz E) as (_ & _ & Hno). destruct (decide (a ≤ q1 + 1)); [done|].
    exfalso. apply (Hno q1); [lia | done]. }
  destruct (window_spec file s1 e1 H0 H1 ltac:(lia)) as (r1 & Hr1 & Hspec1).
  destruct (window_spec file (e1 + 1) e2 ltac:(lia) ltac:(lia) H2) as (r2 & Hr2 & Hspec2).
  destruct r1 as [[a1 b1]|]; [|destruct Hspec1 as [_ Hno]; exfalso; apply (Hno q1); [lia | done]].
  destruct r2 as [[a2 b2]|]; [|destruct Hspec2 as [_ Hno]; exfalso; apply (Hno q1); [lia | done]].
  exists a1, b1, a2, b2. split; [done|]. split; [done|].
  destruct Hspec1 as (Ha1 & Hab1 & Hb1 & Hs01 & Hs11 & _ & He21).
  destruct Hspec2 as (Ha2 & Hab2 & Hb2 & Hs02 & Hs12 & He12 & He22).
  split_and!.
  - by apply (Hstart s1 a1).
  - destruct (He21 ltac:(lia)) as [[_ Hno] | [_ Hno]].
    + destruct (decide (q2 < b1)); [done|]. exfalso. apply (Hno q2); [lia | done].
    + exfalso. apply (Hno q1); [lia | done].
  - apply (Hstart (e1 + 1) a2); [lia | lia | done | done].
  - destruct (decide (e2 = Z.of_nat (length file) - 1)) as [E|E].
    + rewrite (He12 E). lia.
    + destruct (He22 ltac:(lia)) as [[_ Hno] | [_ Hno]].
      * destruct (decide (q2 < b2)); [done|]. exfalso. apply (Hno q2); [lia | done].
      * exfalso. apply (Hno q1); [lia | done].
Qed.

Lemma Part002_consecutive_windows_share_lines_witness :
  ∃ a1 b1 a2 b2,
    Part002.window (bytes "A;1" ++ [LF] ++ bytes "B;2" ++ [LF] ++ bytes "C;3" ++ [LF]) (0, 1)
      = Some (Some (a1, b1)) ∧
    Part002.window (bytes "A;1" ++ [LF] ++ bytes "B;2" ++ [LF] ++ bytes "C;3" ++ [LF])
      (1 + 1, 11) = Some (Some (a2, b2)) ∧
    a1 ≤ 3 + 1 ∧ 7 < b1 ∧ a2 ≤ 3 + 1 ∧ 7 < b2.
Proof.
  apply Part002_consecutive_windows_share_lines; try lia; try reflexivity.
  all: vm_compute; discriminate.
Defined.
